(** * The `add` command of the react-native-reusables CLI

    A shallow embedding of [packages/cli/src/commands/add.ts]: the import
    rewriter [fixImports], the file installer [writeFiles] and the tail of the
    [add] action, together with the JavaScript string primitives and the Node
    [path]/[fs] primitives they are built from. *)

From stdpp Require Import gmap list strings.
From Equations Require Import Equations.

Set Default Proof Using "Type".
Local Open Scope list_scope.

(** ** JavaScript strings

    A JavaScript string is a finite sequence of UTF-16 code units.  A code
    unit is modelled by its number; all matching below compares code units. *)

Abbreviation str := (list N).

(** An ASCII literal of the source, as a sequence of code units. *)
Definition lit (s : string) : str :=
  Ascii.N_of_ascii <$> String.list_ascii_of_string s.

Module JSString.

(** [s.includes(p)]: [p] occurs in [s] as a contiguous run of code units. *)
Definition contains (p s : str) : Prop := ∃ u v, s = u ++ p ++ v.

Fixpoint includes (p s : str) : bool :=
  if decide (p `prefix_of` s) then true
  else match s with
       | [] => false
       | _ :: t => includes p t
       end.

(** [StringIndexOf(s, p, 0)]: the least position at which [p] occurs. *)
Fixpoint indexOf (p s : str) : option nat :=
  if decide (p `prefix_of` s) then Some 0
  else match s with
       | [] => None
       | _ :: t => S <$> indexOf p t
       end.

Definition DOLLAR : N := 36.
Definition AMPERSAND : N := 38.
Definition APOSTROPHE : N := 39.
Definition BACKTICK : N := 96.

(** [GetSubstitution(matched, str, position, « », undefined, template)]:
    the expansion of a replacement template for a string pattern.  There are
    no captures, so [$n] and [$<] stand for themselves; [$$], [$&], [$`] and
    [$'] are the only references that expand. *)
Fixpoint getSubstitution (matched s : str) (position : nat) (template : str) : str :=
  match template with
  | [] => []
  | c :: t =>
      if decide (c = DOLLAR) then
        match t with
        | [] => [c]
        | d :: t' =>
            if decide (d = DOLLAR) then DOLLAR :: getSubstitution matched s position t'
            else if decide (d = AMPERSAND) then matched ++ getSubstitution matched s position t'
            else if decide (d = BACKTICK) then take position s ++ getSubstitution matched s position t'
            else if decide (d = APOSTROPHE) then
              drop (position + length matched) s ++ getSubstitution matched s position t'
            else c :: getSubstitution matched s position t
        end
      else c :: getSubstitution matched s position t
  end.

(** [s.replace(p, r)] for a string pattern [p] and a string [r]: only the
    first occurrence is substituted. *)
Definition replace (p r s : str) : str :=
  match indexOf p s with
  | None => s
  | Some pos =>
      take pos s ++ getSubstitution p s pos r ++ drop (pos + length p) s
  end.

(** The scan of [s.replaceAll(p, r)]: [rest] is the part of [s] from
    position [pos] on, and [skip] code units of it still belong to the match
    found last.  Matches are taken left to right and do not overlap; the
    empty pattern matches before every code unit and at the end. *)
Fixpoint replaceAll_scan (p r s : str) (pos skip : nat) (rest : str) : str :=
  match rest with
  | [] =>
      match skip with
      | 0 => if decide (p = []) then getSubstitution p s pos r else []
      | S _ => []
      end
  | c :: t =>
      match skip with
      | S k => replaceAll_scan p r s (S pos) k t
      | 0 =>
          if decide (p `prefix_of` rest) then
            getSubstitution p s pos r ++
            match length p with
            | 0 => c :: replaceAll_scan p r s (S pos) 0 t
            | S k => replaceAll_scan p r s (S pos) k t
            end
          else c :: replaceAll_scan p r s (S pos) 0 t
      end
  end.

(** [s.replaceAll(p, r)] for a string pattern [p] and a string [r]. *)
Definition replaceAll (p r s : str) : str := replaceAll_scan p r s 0 0 s.

End JSString.

Import JSString.

(** ** The import rewriter *)

(** [fixImports] of add.ts: three first-occurrence substitutions followed by
    three substitutions of every occurrence, in this order. *)
Definition fixImports (rawfile componentsAlias libAlias : str) : str :=
  let s1 := replace (lit "../Icons") (componentsAlias ++ lit "/Icons") rawfile in
  let s2 := replace (lit "./typography") (componentsAlias ++ lit "/ui/typography") s1 in
  let s3 := replace (lit "./text") (componentsAlias ++ lit "/ui/text") s2 in
  let s4 := replaceAll (lit "../../components") componentsAlias s3 in
  let s5 := replaceAll (lit "../../lib") libAlias s4 in
  replaceAll (lit "@rnr") (componentsAlias ++ lit "/primitives") s5.

(** The same six substitutions as a table: which occurrences a rule
    replaces, its pattern and its replacement template. *)
Inductive Occurrences := FirstOccurrence | EveryOccurrence.

Record Rule := {
  replaced : Occurrences;
  pattern : str;
  template : str;
}.

Definition rewriter_rules (componentsAlias libAlias : str) : list Rule :=
  [ {| replaced := FirstOccurrence; pattern := lit "../Icons";
       template := componentsAlias ++ lit "/Icons" |};
    {| replaced := FirstOccurrence; pattern := lit "./typography";
       template := componentsAlias ++ lit "/ui/typography" |};
    {| replaced := FirstOccurrence; pattern := lit "./text";
       template := componentsAlias ++ lit "/ui/text" |};
    {| replaced := EveryOccurrence; pattern := lit "../../components";
       template := componentsAlias |};
    {| replaced := EveryOccurrence; pattern := lit "../../lib";
       template := libAlias |};
    {| replaced := EveryOccurrence; pattern := lit "@rnr";
       template := componentsAlias ++ lit "/primitives" |} ].

Definition apply_rule (s : str) (rule : Rule) : str :=
  match replaced rule with
  | FirstOccurrence => replace (pattern rule) (template rule) s
  | EveryOccurrence => replaceAll (pattern rule) (template rule) s
  end.

(** The patterns of [fixImports], in the order of their application. *)
Definition rewriter_patterns : list str :=
  [ lit "../Icons"; lit "./typography"; lit "./text";
    lit "../../components"; lit "../../lib"; lit "@rnr" ].

(** The patterns given to [replace], which name one file. *)
Definition single_file_patterns : list str :=
  [ lit "../Icons"; lit "./typography"; lit "./text" ].

(** The patterns given to [replaceAll], which name a directory or a scope. *)
Definition directory_patterns : list str :=
  [ lit "../../components"; lit "../../lib"; lit "@rnr" ].

(** The number of positions of [s] at which [p] occurs. *)
Fixpoint occurrences (p s : str) : nat :=
  (if decide (p `prefix_of` s) then 1 else 0) +
  match s with
  | [] => 0
  | _ :: t => occurrences p t
  end.

Definition FULL_STOP : N := 46.
Definition COMMERCIAL_AT : N := 64.

(** An alias that cannot bring a directory pattern back: it has no [$], [.]
    or [@], and its first code unit is in none of the directory patterns. *)
Definition alias_safe (alias : str) : bool :=
  bool_decide ((DOLLAR ∉ alias) ∧ (FULL_STOP ∉ alias) ∧ (COMMERCIAL_AT ∉ alias))
  && match alias with
     | [] => false
     | h :: _ => bool_decide (Forall (λ p, h ∉ p) directory_patterns)
     end.

(** ** Node's [path] module (POSIX flavour) *)

Module NodePath.

Definition SLASH : N := 47.
Definition DOT : N := 46.
Definition DOTDOT : str := [DOT; DOT].

(** The segments of a path: the runs between separators, empty runs
    included. *)
Fixpoint split_slash (s : str) : list str :=
  match s with
  | [] => [[]]
  | c :: t =>
      if decide (c = SLASH) then [] :: split_slash t
      else match split_slash t with
           | [] => [[c]]
           | seg :: segs => (c :: seg) :: segs
           end
  end.

Fixpoint join_slash (segs : list str) : str :=
  match segs with
  | [] => []
  | [seg] => seg
  | seg :: rest => seg ++ SLASH :: join_slash rest
  end.

(** One segment of [normalizeString]; [res] holds the segments kept so far,
    the last one first.  Empty segments and [.] are dropped, [..] removes
    the last segment kept, or is kept itself when there is none to remove
    and the path is relative. *)
Definition normalize_step (allowAboveRoot : bool) (res : list str) (seg : str) : list str :=
  if decide (seg = [] ∨ seg = [DOT]) then res
  else if decide (seg = DOTDOT) then
    match res with
    | last :: res' =>
        if decide (last = DOTDOT)
        then (if allowAboveRoot then DOTDOT :: res else res)
        else res'
    | [] => if allowAboveRoot then [DOTDOT] else []
    end
  else seg :: res.

Definition normalize_segments (allowAboveRoot : bool) (path : str) : list str :=
  foldl (normalize_step allowAboveRoot) [] (split_slash path).

Definition normalizeString (path : str) (allowAboveRoot : bool) : str :=
  join_slash (reverse (normalize_segments allowAboveRoot path)).

Definition isAbsolute (path : str) : bool := bool_decide (head path = Some SLASH).

(** [path.normalize] *)
Definition normalize (path : str) : str :=
  match path with
  | [] => [DOT]
  | _ =>
      let trailingSeparator := bool_decide (last path = Some SLASH) in
      let p := normalizeString path (negb (isAbsolute path)) in
      match p with
      | [] =>
          if isAbsolute path then [SLASH]
          else if trailingSeparator then [DOT; SLASH] else [DOT]
      | _ =>
          let p' := if trailingSeparator then p ++ [SLASH] else p in
          if isAbsolute path then SLASH :: p' else p'
      end
  end.

(** [path.join(...args)] *)
Definition join (args : list str) : str :=
  match filter (λ arg, arg ≠ []) args with
  | [] => [DOT]
  | nonempty => normalize (join_slash nonempty)
  end.

(** A segment that [normalizeString] keeps in an absolute path: it is
    not empty, not [.], not [..], and has no separator. *)
Definition kept (seg : str) : Prop :=
  seg ≠ [] ∧ seg ≠ [DOT] ∧ seg ≠ DOTDOT ∧ SLASH ∉ seg.

(** One round of the right-to-left loop of [path.resolve]. *)
Definition resolve_prepend (path : str) (acc : str * bool) : str * bool :=
  if snd acc then acc
  else match path with
       | [] => acc
       | _ => (path ++ SLASH :: fst acc, isAbsolute path)
       end.

(** [path.resolve(...args)], [cwd] being [process.cwd()]. *)
Definition resolve (cwd : str) (args : list str) : str :=
  let '(resolvedPath, resolvedAbsolute) :=
    resolve_prepend cwd (foldr resolve_prepend ([], false) args) in
  let p := normalizeString resolvedPath (negb resolvedAbsolute) in
  if resolvedAbsolute then SLASH :: p
  else match p with [] => [DOT] | _ => p end.

End NodePath.

(** ** The catalog and the project configuration *)

Inductive Platforms := universal | native_only.

(** A file entry: [{ from, to: { folder, file } }]. *)
Record PathEntry := {
  from : str;
  to_folder : str;
  to_file : str;
}.

(** [paths] of a component: one list, or one list per platform mode. *)
Inductive Paths :=
| PathsArray (entries : list PathEntry)
| PathsByPlatform (universal_entries native_only_entries : list PathEntry).

Record Component := {
  name : str;
  type : str;
  paths : Paths;
  dependencies : list str;
  npmPackages : list str * list str;
}.

Record Config := {
  platforms : Platforms;
  aliases_components : str;
  aliases_lib : str;
  resolvedPaths_components : str;
}.

(** The parsed options of the command ([addOptionsSchema]). *)
Record Options := {
  components : option (list str);
  overwrite : bool;
  cwd : str;
  path : option str;
}.

(** A value that has been thrown: whether it is an [Error], and its
    [message]. *)
Record Thrown := {
  instanceofError : bool;
  message : str;
}.

(** ** The process: file system, operator and terminal *)

(** What the operator can observe, in order. *)
Inductive Event :=
| LoggerError (text : str)
| LoggerErrorValue (err : Thrown)
| LoggerWarn (text : str)
| LoggerInfo (text : str)
| SpinnerStart (text : str)
| SpinnerStop
| SpinnerText (text : str)
| SpinnerSucceed (text : str)
| PromptConfirm (text : str)
| ConsoleLog (label : str) (items : list str).

(** The state of a run.  [files] maps the resolved path of every regular file
    to its text, [dirs] holds the resolved paths of the directories,
    [answers] are the answers the operator will give to the prompts to come,
    [trace] is what has been shown so far, the latest event first. *)
Record World := {
  files : gmap str str;
  dirs : gset str;
  answers : list bool;
  trace : list Event;
}.

Inductive Outcome (A : Type) :=
| Ret (a : A)
| Exit (code : nat)
| Throw (err : Thrown).
Arguments Ret {A} a.
Arguments Exit {A} code.
Arguments Throw {A} err.

(** An action of the process: it ends with a value, with [process.exit], or
    with an exception. *)
Definition IO (A : Type) : Type := World → Outcome A * World.

Definition ret {A} (a : A) : IO A := λ w, (Ret a, w).

Definition bind {A B} (m : IO A) (k : A → IO B) : IO B :=
  λ w, match m w with
       | (Ret a, w') => k a w'
       | (Exit code, w') => (Exit code, w')
       | (Throw err, w') => (Throw err, w')
       end.

Notation "x <- m ;; k" := (bind m (λ x, k))
  (at level 100, m at next level, right associativity).
Notation "m ;; k" := (bind m (λ _, k))
  (at level 100, right associativity).

(** [try { body } catch (error) { handler(error) }] *)
Definition try_catch {A} (body : IO A) (handler : Thrown → IO A) : IO A :=
  λ w, match body w with
       | (Throw err, w') => handler err w'
       | r => r
       end.

Definition process_exit {A} (code : nat) : IO A := λ w, (Exit code, w).

Definition emit (e : Event) : IO unit :=
  λ w, (Ret tt, {| files := files w; dirs := dirs w; answers := answers w;
                   trace := e :: trace w |}).

(** The exit code of the process once the action has ended: an action that
    returns leaves the code at 0. *)
Definition exit_code {A} (o : Outcome A) : option nat :=
  match o with
  | Ret _ => Some 0
  | Exit code => Some code
  | Throw _ => None
  end.

Section Process.

(** [process.cwd()]. *)
Variable process_cwd : str.

(** Modelled from the spec: [handleError] (src/utils/handle-error) is not
    among the sources.  The centralized handler logs the error and may
    terminate the process; whether it terminates is this parameter. *)
Variable handleError_exits : bool.

(** [chalk.green] and the like only decorate a text. *)
Variable chalk_green : str → str.

Definition handleError (err : Thrown) : IO unit :=
  emit (LoggerErrorValue err) ;;
  if handleError_exits then process_exit 1 else ret tt.

(** *** Node's [fs], on resolved paths *)

Definition fs_key (p : str) : str := NodePath.resolve process_cwd [p].

(** A file or a directory is at [p]. *)
Definition exists_in (w : World) (p : str) : bool :=
  bool_decide (is_Some (files w !! fs_key p)) || bool_decide (fs_key p ∈ dirs w).

(** [existsSync(p)] *)
Definition existsSync (p : str) : IO bool := λ w, (Ret (exists_in w p), w).

(** The segments of a resolved path; [p] lies under [base] when the
    segments of [base] start those of [p]. *)
Definition path_segments (p : str) : list str :=
  filter (λ seg, seg ≠ []) (NodePath.split_slash (fs_key p)).

Definition is_under (base p : str) : Prop :=
  path_segments base `prefix_of` path_segments p.

(** The resolved paths of a directory and of the directories above it. *)
Definition ancestors (p : str) : list str :=
  let segs := filter (λ seg, seg ≠ []) (NodePath.split_slash (fs_key p)) in
  (λ n, NodePath.SLASH :: NodePath.join_slash (take n segs)) <$> seq 1 (length segs).

(** [fs.mkdir(p, { recursive: true })], for a call that Node carries out:
    [p] and the directories above it are there afterwards.  Node rejects
    the call (EEXIST, ENOTDIR) when a regular file is at [p] or above it;
    [mkdir_possible] says that none is. *)
Definition mkdir_recursive (p : str) : IO unit :=
  λ w, (Ret tt, {| files := files w;
                   dirs := dirs w ∪ list_to_set (ancestors p);
                   answers := answers w; trace := trace w |}).

Definition mkdir_possible (w : World) (p : str) : Prop :=
  Forall (λ a, files w !! a = None) (ancestors p).

Definition ENOENT (p : str) : Thrown :=
  {| instanceofError := true;
     message := lit "ENOENT: no such file or directory, open '" ++ p ++ lit "'" |}.

Definition EISDIR : Thrown :=
  {| instanceofError := true;
     message := lit "EISDIR: illegal operation on a directory, read" |}.

Definition ENOTDIR (p : str) : Thrown :=
  {| instanceofError := true;
     message := lit "ENOTDIR: not a directory, open '" ++ p ++ lit "'" |}.

(** The exception of [fs.readFile] for a path that holds no regular file:
    EISDIR when a directory is there, ENOTDIR when a regular file is above
    the path, ENOENT when nothing is there. *)
Definition read_error (fs : gmap str str) (ds : gset str) (p : str) : Thrown :=
  if bool_decide (fs_key p ∈ ds) then EISDIR
  else if bool_decide (Exists (λ a, is_Some (fs !! a)) (removelast (ancestors p)))
       then ENOTDIR p
       else ENOENT p.

(** [fs.readFile(p, 'utf8')]: the text of the file, or an exception when
    no regular file is at [p]. *)
Definition readFile (p : str) : IO str :=
  λ w, match files w !! fs_key p with
       | Some content => (Ret content, w)
       | None => (Throw (read_error (files w) (dirs w) p), w)
       end.

(** [fs.writeFile(p, content)], for a call that Node carries out: the file
    is created or replaced.  Node rejects the call when [p] is a directory
    (EISDIR) and when the directory that is to hold the file is missing
    (ENOENT) or is not a directory (ENOTDIR); [write_possible] says that
    neither is the case. *)
Definition writeFile (p content : str) : IO unit :=
  λ w, (Ret tt, {| files := <[fs_key p := content]> (files w);
                   dirs := dirs w; answers := answers w; trace := trace w |}).

(** The directory that holds the resolved path [k]. *)
Definition parent_dir (k : str) : str :=
  NodePath.SLASH
  :: NodePath.join_slash
       (removelast (filter (λ seg, seg ≠ []) (NodePath.split_slash k))).

(** A directory is at the resolved path [k]; the root always is one. *)
Definition directory_at (w : World) (k : str) : Prop :=
  k = [NodePath.SLASH] ∨ k ∈ dirs w.

Definition write_possible (w : World) (p : str) : Prop :=
  (fs_key p ∉ dirs w) ∧ directory_at w (parent_dir (fs_key p)).

(** [prompts({ type: 'confirm', ... })]: the next answer of the operator; a
    prompt that is left without an answer yields [undefined], which the
    callers read as a refusal. *)
Definition prompts_confirm (text : str) : IO bool :=
  λ w, (Ret (default false (head (answers w))),
        {| files := files w; dirs := dirs w; answers := tail (answers w);
           trace := PromptConfirm text :: trace w |}).

(** *** The file installer *)

(** [array.join(separator)] *)
Fixpoint array_join (separator : str) (items : list str) : str :=
  match items with
  | [] => []
  | [item] => item
  | item :: rest => item ++ separator ++ array_join separator rest
  end.

(** [path.join(config.resolvedPaths.components, compPath.to.folder)] *)
Definition target_dir (config : Config) (compPath : PathEntry) : str :=
  NodePath.join [resolvedPaths_components config; to_folder compPath].

(** [path.join(targetDir, compPath.to.file)] *)
Definition destination (config : Config) (compPath : PathEntry) : str :=
  NodePath.join [target_dir config compPath; to_file compPath].

(** [path.resolve(compPath.from)] *)
Definition source (compPath : PathEntry) : str :=
  NodePath.resolve process_cwd [from compPath].

(** Lines 182 to 184: the target directory is created when it is missing. *)
Definition ensure_target_dir (targetDir : str) : IO unit :=
  dirExists <- existsSync targetDir ;;
  if negb dirExists then mkdir_recursive targetDir else ret tt.

(** Lines 182 to 184 go through: something is at the target directory, so
    that [fs.mkdir] is not called, or [fs.mkdir] can make it. *)
Definition target_dir_reachable (w : World) (targetDir : str) : Prop :=
  exists_in w targetDir = true ∨ mkdir_possible w targetDir.

(** The message of the prompt of line 191. *)
Definition overwrite_question (compPath : PathEntry) : str :=
  lit "File " ++ array_join (lit "/") [to_folder compPath; to_file compPath]
  ++ lit " already exists. Would you like to overwrite?".

(** The message of line 199. *)
Definition skipped_message (comp : Component) : str :=
  lit "Skipped " ++ name comp ++ lit ". To overwrite, run with the "
  ++ chalk_green (lit "--overwrite") ++ lit " flag.".

(** Lines 186 to 203: whether the entry is to be installed.  When the
    destination exists and [--overwrite] was not given, the operator is
    asked; a refusal is logged and skips the entry ([continue]). *)
Definition confirm_overwrite (comp : Component) (compPath : PathEntry)
    (config : Config) (options : Options) : IO bool :=
  conflict <- (if negb (overwrite options)
               then existsSync (destination config compPath)
               else ret false) ;;
  if conflict : bool then
    emit SpinnerStop ;;
    answer <- prompts_confirm (overwrite_question compPath) ;;
    if negb answer then
      emit (LoggerInfo (skipped_message comp)) ;;
      ret false
    else ret true
  else ret true.

(** Lines 205 to 214: the source is read, rewritten and written to the
    destination; an exception of either step goes to [handleError]. *)
Definition install_file (comp : Component) (compPath : PathEntry)
    (config : Config) : IO unit :=
  emit (SpinnerStart (lit "Installing " ++ name comp ++ lit "...")) ;;
  try_catch
    (content <- readFile (source compPath) ;;
     writeFile (destination config compPath)
               (fixImports content (aliases_components config) (aliases_lib config)))
    handleError.

(** The body of the loop of [writeFiles], for one file entry. *)
Definition writeFiles_entry (comp : Component) (compPath : PathEntry)
    (config : Config) (options : Options) : IO unit :=
  ensure_target_dir (target_dir config compPath) ;;
  proceed <- confirm_overwrite comp compPath config options ;;
  if proceed : bool then install_file comp compPath config else ret tt.

(** [writeFiles(comp, paths, config, options, spinner)] *)
Fixpoint writeFiles (comp : Component) (paths : list PathEntry)
    (config : Config) (options : Options) : IO unit :=
  match paths with
  | [] => ret tt
  | compPath :: rest =>
      writeFiles_entry comp compPath config options ;;
      writeFiles comp rest config options
  end.

(** *** The [add] action, from the selection on *)

(** The catalog [COMPONENTS], the constant [INVALID_COMPONENT_ERROR] and the
    resolver [getAllComponentsToWrite] of src/items, which the action
    imports. *)
Variable COMPONENTS : list Component.
Variable INVALID_COMPONENT_ERROR : str.
Variable getAllComponentsToWrite : list str → Thrown + list Component.

(** [COMPONENTS.find((entry) => entry.name === component)] *)
Definition find_component (component : str) : option Component :=
  List.find (λ entry, bool_decide (name entry = component)) COMPONENTS.

(** [selectedComponents.filter((component) =>
      !COMPONENTS.find((entry) => entry.name === component))] *)
Definition invalid_components (selectedComponents : list str) : list str :=
  filter (λ component, find_component component = None) selectedComponents.

Definition select_paths (comp : Component) (config : Config) : list PathEntry :=
  match paths comp with
  | PathsArray entries => entries
  | PathsByPlatform universal_entries native_only_entries =>
      match platforms config with
      | universal => universal_entries
      | native_only => native_only_entries
      end
  end.

Definition select_npmPackages (comp : Component) (config : Config) : list str :=
  match platforms config with
  | universal => fst (npmPackages comp)
  | native_only => snd (npmPackages comp)
  end.

(** The loop over [componentsToWrite]. *)
Fixpoint install_components (componentsToWrite : list Component)
    (config : Config) (options : Options) : IO unit :=
  match componentsToWrite with
  | [] => ret tt
  | comp :: rest =>
      emit (SpinnerText (lit "Installing " ++ name comp ++ lit "...")) ;;
      writeFiles comp (select_paths comp config) config options ;;
      emit (ConsoleLog (lit "NPM PACKAGES") (select_npmPackages comp config)) ;;
      install_components rest config options
  end.

(** The action of [add] once the configuration is loaded and the components
    have been selected (lines 87 to 165 of add.ts). *)
Definition add_selected (selectedComponents : list str)
    (config : Config) (options : Options) : IO unit :=
  try_catch
    ((match selectedComponents with
      | [] => emit (LoggerWarn (lit "No components selected. Exiting.")) ;; process_exit 0
      | _ => ret tt
      end) ;;
     emit (SpinnerStart (lit "Installing components...")) ;;
     componentsToWrite <-
       match getAllComponentsToWrite selectedComponents with
       | inr resolved => ret resolved
       | inl err =>
           (if instanceofError err && bool_decide (message err = INVALID_COMPONENT_ERROR) then
              emit (LoggerError (lit "Invalid component(s): "
                                 ++ array_join (lit ", ") (invalid_components selectedComponents))) ;;
              process_exit 1
            else ret tt) ;;
           emit (LoggerErrorValue err) ;;
           ret []
       end ;;
     install_components componentsToWrite config options ;;
     emit (SpinnerSucceed (lit "Done.")))
    handleError.

End Process.

(** ** The dependency resolver *)

Module Resolver.

(** The failure of a resolution: the names that are not in the catalog. *)
Inductive ResolveError :=
| UnknownComponentError (names : list str).

Section Resolver.

Variable COMPONENTS : list Component.

(** What is left to include: one unit per catalog entry that is not yet
    included, and one per dependency it declares. *)
Definition pending (included : list str) : nat :=
  sum_list ((λ c, S (length (dependencies c)))
              <$> filter (λ c, name c ∉ included) COMPONENTS).

(** Modelled from the spec: the transitive expansion of
    [getAllComponentsToWrite] (src/items is not among the sources).  For
    each requested component, include it and then its declared
    dependencies, recursively; a component that is already included is
    not visited again, which also makes cycles harmless; a name that is
    not in the catalog is a resolution error.  [work] is the list of the
    names still to visit, the dependencies of the component included last
    in front, and [acc] the components included so far, in the order of
    their first visit. *)
Equations? expand (work : list str) (acc : list Component)
    : ResolveError + list Component
    by wf (length work + pending (name <$> acc)) lt :=
  expand [] acc := inr acc;
  expand (n :: rest) acc with decide (n ∈ name <$> acc) := {
    | left _ := expand rest acc
    | right _ with Logic.inspect (find_component COMPONENTS n) := {
        | exist _ None _ := inl (UnknownComponentError [n])
        | exist _ (Some c) Hfind := expand (dependencies c ++ rest) (acc ++ [c]) } }.
Proof.
  apply find_some in Hfind as [Hin Hname].
  apply bool_decide_eq_true in Hname. subst n.
  rewrite length_app, fmap_app. cbn [fmap list_fmap].
  unfold pending. revert Hin. generalize COMPONENTS as l.
  pose (weight := λ c : Component, S (length (dependencies c))).
  fold weight.
  assert (Hlater : ∀ d : Component,
    name d ∉ (name <$> acc) ++ [name c] → name d ∉ name <$> acc).
  { intros d Hd Hin. apply Hd, elem_of_app. by left. }
  assert (Hself : ¬ (name c ∉ (name <$> acc) ++ [name c])).
  { intros Hc. apply Hc, elem_of_app. right. apply list_elem_of_here. }
  assert (Hmono : ∀ l : list Component,
    sum_list (weight <$> filter (λ d, name d ∉ (name <$> acc) ++ [name c]) l)
    ≤ sum_list (weight <$> filter (λ d, name d ∉ name <$> acc) l)).
  { induction l as [|d l IH]; [done|].
    rewrite !filter_cons.
    destruct (decide (name d ∉ (name <$> acc) ++ [name c])) as [Hd|Hd].
    - rewrite decide_True by by apply Hlater. cbn. lia.
    - destruct (decide (name d ∉ name <$> acc)); cbn; lia. }
  induction l as [|d l IH]; intros Hin; [by inversion Hin|].
  rewrite !filter_cons.
  destruct Hin as [->|Hin].
  + rewrite decide_False, decide_True by done.
    specialize (Hmono l). cbn. unfold weight in *. lia.
  + specialize (IH Hin).
    destruct (decide (name d ∉ (name <$> acc) ++ [name c])) as [Hd|Hd].
    * rewrite decide_True by by apply Hlater. cbn. lia.
    * destruct (decide (name d ∉ name <$> acc)); cbn; lia.
Qed.

(** Modelled from the spec: [getAllComponentsToWrite] (src/items is not
    among the sources).  Every requested name must be in the catalog; if
    some are not, the resolution fails with an [UnknownComponentError]
    that lists all of them; otherwise the requested components are
    expanded to their transitive closure, without duplicates, in a fixed
    order. *)
Definition resolve (requested : list str) : ResolveError + list Component :=
  match filter (λ n, find_component COMPONENTS n = None) requested with
  | [] => expand requested []
  | invalid => inl (UnknownComponentError invalid)
  end.

(** Every declared dependency of a member is a member. *)
Definition dependency_closed (resolved : list Component) : Prop :=
  ∀ c d, c ∈ resolved → d ∈ dependencies c → d ∈ name <$> resolved.

(** The invariant of the data model: every name referenced in
    [dependencies] exists in the catalog. *)
Definition catalog_closed : Prop :=
  ∀ c d, c ∈ COMPONENTS → d ∈ dependencies c →
         is_Some (find_component COMPONENTS d).

(** What [expand] keeps true: the names included are distinct, the
    components are catalog entries, and a dependency of an included
    component is included or still to be visited. *)
Record invariant (work : list str) (acc : list Component) : Prop := {
  inv_distinct : NoDup (name <$> acc);
  inv_catalog : ∀ c, c ∈ acc → c ∈ COMPONENTS;
  inv_pending : ∀ c d, c ∈ acc → d ∈ dependencies c →
                       d ∈ name <$> acc ∨ d ∈ work;
}.

Variable INVALID_COMPONENT_ERROR : str.

(** Modelled from the spec: the exception the resolver raises, as the
    [catch] of the [add] action sees it: an [Error] whose message is
    [INVALID_COMPONENT_ERROR]. *)
Definition thrown (e : ResolveError) : Thrown :=
  {| instanceofError := true; message := INVALID_COMPONENT_ERROR |}.

Definition getAllComponentsToWrite (requested : list str) : Thrown + list Component :=
  match resolve requested with
  | inl e => inl (thrown e)
  | inr resolved => inr resolved
  end.

End Resolver.

End Resolver.

(** ** Sample data

    A small project, used to run the definitions on concrete inputs. *)

Module Sample.

Definition process_cwd : str := lit "/app".

Definition config : Config :=
  {| platforms := universal;
     aliases_components := lit "~/components";
     aliases_lib := lit "~/lib";
     resolvedPaths_components := lit "/app/components" |}.

Definition options (force : bool) : Options :=
  {| components := Some [lit "button"]; overwrite := force;
     cwd := lit "/app"; path := None |}.

Definition button_entry : PathEntry :=
  {| from := lit "/registry/ui/button.tsx";
     to_folder := lit "ui"; to_file := lit "button.tsx" |}.

(** An entry whose folder climbs out of the components directory. *)
Definition escaping_entry : PathEntry :=
  {| from := lit "/registry/ui/button.tsx";
     to_folder := lit "../../etc"; to_file := lit "button.tsx" |}.

(** An entry whose source is not in the registry. *)
Definition card_entry : PathEntry :=
  {| from := lit "/registry/ui/card.tsx";
     to_folder := lit "ui"; to_file := lit "card.tsx" |}.

Definition button : Component :=
  {| name := lit "button"; type := lit "ui";
     paths := PathsArray [button_entry];
     dependencies := [lit "text"];
     npmPackages := ([], []) |}.

Definition text : Component :=
  {| name := lit "text"; type := lit "ui";
     paths := PathsArray [];
     dependencies := [lit "button"];
     npmPackages := ([], []) |}.

Definition COMPONENTS : list Component := [button; text].

Definition INVALID_COMPONENT_ERROR : str := lit "INVALID_COMPONENT".

Definition button_source : str := lit "import { cn } from '../../lib/utils';".

(** A project in which the button is installed already. *)
Definition world (operator : list bool) : World :=
  {| files := {[ lit "/registry/ui/button.tsx" := button_source;
                 lit "/app/components/ui/button.tsx" := lit "old" ]};
     dirs := {[ lit "/app"; lit "/app/components"; lit "/app/components/ui" ]};
     answers := operator;
     trace := [] |}.

(** A project without components. *)
Definition fresh_world : World :=
  {| files := {[ lit "/registry/ui/button.tsx" := button_source ]};
     dirs := {[ lit "/app" ]};
     answers := [];
     trace := [] |}.

End Sample.

(** ** The rest of the command *)

(** [throw err] *)
Definition throw {A} (err : Thrown) : IO A := λ w, (Throw err, w).

(** The questions among the events shown. *)
Definition is_prompt (ev : Event) : bool :=
  match ev with
  | PromptConfirm _ => true
  | _ => false
  end.

(** How many questions are among the events shown. *)
Fixpoint prompts_shown (events : list Event) : nat :=
  match events with
  | [] => 0
  | ev :: rest => (if is_prompt ev then 1 else 0) + prompts_shown rest
  end.

(** What [console.log] has printed, the latest line first. *)
Fixpoint console_logs (events : list Event) : list (str * list str) :=
  match events with
  | [] => []
  | ConsoleLog label items :: rest => (label, items) :: console_logs rest
  | _ :: rest => console_logs rest
  end.

(** What the operator enters at the three questions of [promptForConfig];
    a question left without an answer yields [undefined]. *)
Record ConfigAnswers := {
  answered_platforms : option str;
  answered_components : option str;
  answered_lib : option str;
}.

Section Command.

Variable process_cwd : str.
Variable handleError_exits : bool.
Variable chalk_green chalk_cyan : str → str.
Variable COMPONENTS : list Component.
Variable INVALID_COMPONENT_ERROR : str.
Variable getAllComponentsToWrite : list str → Thrown + list Component.

(** What src/utils/get-config provides, which is not among the sources: the
    validated configuration [RawConfig] that [rawConfigSchema.parse] returns
    or refuses with an exception, [getConfig], and [resolveConfigPaths]. *)
Variable RawConfig : Type.
Variable rawConfigSchema_parse : ConfigAnswers → Thrown + RawConfig.
Variable getConfig : str → IO (option Config).
Variable resolveConfigPaths : str → RawConfig → IO Config.

(** [JSON.stringify(config, null, 2)] *)
Variable JSON_stringify : RawConfig → str.

(** The three questions of [promptForConfig] (lines 231 to 253) and the
    selection of the components (lines 72 to 83, given the choices), as the
    operator answers them. *)
Variable prompts_config : IO ConfigAnswers.
Variable prompts_multiselect : list str → IO (option (list str)).

(** [promptForConfig(cwd)] *)
Definition promptForConfig (cwd : str) : IO Config :=
  options <- prompts_config ;;
  config <- match rawConfigSchema_parse options with
            | inl err => throw err
            | inr config => ret config
            end ;;
  proceed <- prompts_confirm
               (lit "Write configuration to " ++ chalk_cyan (lit "components.json")
                ++ lit ". Proceed?") ;;
  (if proceed : bool then
     emit (LoggerInfo []) ;;
     emit (SpinnerStart (lit "Writing components.json...")) ;;
     writeFile process_cwd
               (NodePath.resolve process_cwd [cwd; lit "components.json"])
               (JSON_stringify config) ;;
     emit (SpinnerSucceed (lit "Writing components.json..."))
   else ret tt) ;;
  resolveConfigPaths cwd config.

(** The choices of the selection: the names of the components of type
    [ui]. *)
Definition ui_choices : list str :=
  name <$> filter (λ comp, type comp = lit "ui") COMPONENTS.

(** The action of [add] (lines 50 to 166).  The options are those that
    [addOptionsSchema.parse] has accepted; the part from line 87 on is
    [add_selected], which carries the handler of the same [try]. *)
Definition add_action (options : Options) : IO unit :=
  try_catch
    (let resolvedCwd := NodePath.resolve process_cwd [cwd options] in
     cwdExists <- existsSync process_cwd resolvedCwd ;;
     (if negb cwdExists then
        emit (LoggerError (lit "The path " ++ resolvedCwd
                           ++ lit " does not exist. Please try again.")) ;;
        process_exit 1
      else ret tt) ;;
     loaded <- getConfig resolvedCwd ;;
     config <- match loaded with
               | Some config => ret config
               | None => promptForConfig resolvedCwd
               end ;;
     selectedComponents <-
       match default [] (components options) with
       | [] =>
           selection <- prompts_multiselect ui_choices ;;
           ret (default [] selection)
       | given => ret given
       end ;;
     add_selected process_cwd handleError_exits chalk_green COMPONENTS
                  INVALID_COMPONENT_ERROR getAllComponentsToWrite
                  selectedComponents config options)
    (handleError handleError_exits).

End Command.

(** * Properties *)

(** ** The primitives on concrete inputs *)

Example fixImports_sample :
  fixImports (lit "a ../Icons b ../Icons c @rnr/x @rnr/y") (lit "~/components") (lit "~/lib")
  = lit "a ~/components/Icons b ../Icons c ~/components/primitives/x ~/components/primitives/y".
Proof. vm_compute. reflexivity. Qed.

Example replaceAll_no_overlap : replaceAll (lit "aa") (lit "b") (lit "aaa") = lit "ba".
Proof. vm_compute. reflexivity. Qed.

Example replaceAll_empty_pattern : replaceAll (lit "") (lit "-") (lit "ab") = lit "-a-b-".
Proof. vm_compute. reflexivity. Qed.

Example replaceAll_references :
  replaceAll (lit "b") (lit "[$`|$&|$'|$$|$1]") (lit "abc") = lit "a[a|b|c|$|$1]c".
Proof. vm_compute. reflexivity. Qed.

Example join_plain : NodePath.join [lit "/a/b"; lit "ui"] = lit "/a/b/ui".
Proof. vm_compute. reflexivity. Qed.

Example join_climbs : NodePath.join [lit "/a/b"; lit "../../etc/"] = lit "/etc/".
Proof. vm_compute. reflexivity. Qed.

Example join_relative : NodePath.join [lit "a/b"; lit "../../../etc"; lit ""] = lit "../etc".
Proof. vm_compute. reflexivity. Qed.

Example join_corner_cases :
  NodePath.join [lit ""; lit ""] = lit "." ∧
  NodePath.join [lit "./"; lit ""] = lit "./" ∧
  NodePath.join [lit "/"; lit ".."] = lit "/".
Proof. vm_compute. done. Qed.

Example resolve_relative : NodePath.resolve (lit "/home/u") [lit "x/../y//z/"] = lit "/home/u/y/z".
Proof. vm_compute. reflexivity. Qed.

Example resolve_rightmost_absolute :
  NodePath.resolve (lit "/home/u") [lit "/x"; lit "y"; lit ""] = lit "/x/y".
Proof. vm_compute. reflexivity. Qed.
(** ** Occurrences, [indexOf], [replace] and [replaceAll] *)

Section StringFacts.

Implicit Types p q r s t u v w rest : str.
Implicit Types a b c h : N.

Lemma contains_nil p : p ≠ [] → ¬ contains p [].
Proof.
  intros Hp (u & v & Huv). symmetry in Huv.
  apply app_eq_nil in Huv as [_ Huv]. apply app_eq_nil in Huv as [? _]. done.
Qed.

Lemma contains_prefix p s : p `prefix_of` s → contains p s.
Proof. intros [v ->]. by exists [], v. Qed.

Lemma contains_cons p c s :
  contains p (c :: s) ↔ p `prefix_of` c :: s ∨ contains p s.
Proof.
  split.
  - intros ([|c' u] & v & Huv).
    + left. by exists v.
    + right. injection Huv as -> ->. by exists u, v.
  - intros [Hpre|(u & v & ->)]; [by apply contains_prefix|].
    by exists (c :: u), v.
Qed.

Lemma contains_app_r p u s : contains p s → contains p (u ++ s).
Proof. intros (u' & v & ->). exists (u ++ u'), v. by rewrite <-(assoc_L (++)). Qed.

Lemma includes_spec p s : includes p s = true ↔ contains p s.
Proof.
  induction s as [|c s IH]; cbn; case_decide as Hpre.
  - split; [intros _; by apply contains_prefix|done].
  - split; [done|]. intros (u & v & Huv).
    destruct Hpre. symmetry in Huv.
    apply app_eq_nil in Huv as [_ Huv]. apply app_eq_nil in Huv as [-> _].
    by exists [].
  - split; [intros _; by apply contains_prefix|done].
  - rewrite IH, contains_cons. tauto.
Qed.

Lemma indexOf_None p s : indexOf p s = None ↔ ¬ contains p s.
Proof.
  induction s as [|c s IH]; cbn; case_decide as Hpre.
  - split; [done|]. intros []. by apply contains_prefix.
  - split; [|done]. intros _ (u & v & Huv). destruct Hpre. symmetry in Huv.
    apply app_eq_nil in Huv as [_ Huv]. apply app_eq_nil in Huv as [-> _].
    by exists [].
  - split; [done|]. intros []. by apply contains_prefix.
  - rewrite contains_cons, fmap_None, IH. tauto.
Qed.

(** [indexOf] finds an occurrence, and no occurrence starts before it. *)
Lemma indexOf_Some p s i :
  indexOf p s = Some i →
  ∃ u v, s = u ++ p ++ v ∧ length u = i ∧
         ∀ u' v', s = u' ++ p ++ v' → i ≤ length u'.
Proof.
  revert i. induction s as [|c s IH]; intros i; cbn; case_decide as Hpre.
  - intros [= <-]. destruct Hpre as [v ->]. exists [], v. split_and!; [done..|].
    intros; lia.
  - done.
  - intros [= <-]. destruct Hpre as [v ->]. exists [], v. split_and!; [done..|].
    intros; lia.
  - destruct (indexOf p s) as [j|] eqn:Hj; [|done]. intros [= <-].
    destruct (IH j eq_refl) as (u & v & -> & <- & Hmin).
    exists (c :: u), v. split_and!; [done..|].
    intros [|c' u'] v' Heq.
    + destruct Hpre. exists v'. by rewrite Heq.
    + injection Heq as -> Heq. cbn. apply Hmin in Heq. lia.
Qed.

(** The first occurrence is the one [indexOf] finds. *)
Lemma indexOf_first p u v :
  (∀ u' v', u ++ p ++ v = u' ++ p ++ v' → length u ≤ length u') →
  indexOf p (u ++ p ++ v) = Some (length u).
Proof.
  intros Hmin.
  destruct (indexOf p (u ++ p ++ v)) as [i|] eqn:Hi.
  - destruct (indexOf_Some _ _ _ Hi) as (u' & v' & Heq & <- & Hmin').
    f_equal. apply Nat.le_antisymm; [by eapply Hmin'|by eapply Hmin].
  - apply indexOf_None in Hi. destruct Hi. by exists u, v.
Qed.

(** A template without [$] stands for itself. *)
Lemma getSubstitution_literal matched s pos r :
  DOLLAR ∉ r → getSubstitution matched s pos r = r.
Proof.
  induction r as [|c r IH]; [done|]. intros Hr. cbn.
  apply not_elem_of_cons in Hr as [Hc Hr].
  rewrite decide_False by done. by rewrite IH.
Qed.

Lemma replace_absent p r s : ¬ contains p s → replace p r s = s.
Proof. intros Hp. unfold replace. apply indexOf_None in Hp. by rewrite Hp. Qed.

(** [replace] rewrites the first occurrence and nothing else. *)
Lemma replace_first p r u v :
  (∀ u' v', u ++ p ++ v = u' ++ p ++ v' → length u ≤ length u') →
  replace p r (u ++ p ++ v)
  = u ++ getSubstitution p (u ++ p ++ v) (length u) r ++ v.
Proof.
  intros Hmin. unfold replace. rewrite indexOf_first by done.
  rewrite take_app_length. do 2 f_equal.
  rewrite drop_app_add', drop_app_length; done.
Qed.

Lemma replaceAll_scan_absent p r s pos rest :
  ¬ contains p rest → replaceAll_scan p r s pos 0 rest = rest.
Proof.
  revert pos. induction rest as [|c rest IH]; intros pos Hp; cbn.
  - case_decide as Hnil; [|done]. destruct Hp. subst p. by exists [], [].
  - rewrite contains_cons in Hp. rewrite decide_False by tauto.
    rewrite IH; [done|tauto].
Qed.

Lemma replaceAll_absent p r s : ¬ contains p s → replaceAll p r s = s.
Proof. apply replaceAll_scan_absent. Qed.

Lemma replaceAll_scan_skip p r s pos w v :
  replaceAll_scan p r s pos (length w) (w ++ v)
  = replaceAll_scan p r s (pos + length w) 0 v.
Proof.
  revert pos. induction w as [|c w IH]; intros pos.
  - by rewrite Nat.add_0_r.
  - cbn. rewrite IH. f_equal. lia.
Qed.

Lemma replaceAll_scan_match p r s pos v :
  p ≠ [] →
  replaceAll_scan p r s pos 0 (p ++ v)
  = getSubstitution p s pos r ++ replaceAll_scan p r s (pos + length p) 0 v.
Proof.
  destruct p as [|a p]; [done|]. intros _. cbn [app replaceAll_scan length].
  rewrite decide_True by (by exists v).
  f_equal. rewrite replaceAll_scan_skip. f_equal. lia.
Qed.

(** [replaceAll] rewrites the first occurrence whatever surrounds it, and
    goes on after it. *)
Lemma replaceAll_scan_first p r s pos u v :
  p ≠ [] →
  (∀ u' v', u ++ p ++ v = u' ++ p ++ v' → length u ≤ length u') →
  replaceAll_scan p r s pos 0 (u ++ p ++ v)
  = u ++ getSubstitution p s (pos + length u) r
      ++ replaceAll_scan p r s (pos + length u + length p) 0 v.
Proof.
  intros Hp. revert pos. induction u as [|c u IH]; intros pos Hmin.
  - cbn [app length]. rewrite Nat.add_0_r. by apply replaceAll_scan_match.
  - cbn [app replaceAll_scan length]. rewrite decide_False.
    + rewrite IH.
      * by rewrite !Nat.add_succ_r.
      * intros u' v' Heq. specialize (Hmin (c :: u') v'). cbn in Hmin.
        rewrite Heq in Hmin. specialize (Hmin eq_refl). lia.
    + intros [v' Heq]. specialize (Hmin [] v' Heq). cbn in Hmin. lia.
Qed.

(** *** What [replaceAll] leaves behind

    [r] is a template without [$] whose first code unit is [h]. *)

Lemma prefix_head_absent q h t : h ∉ q → q `prefix_of` h :: t → q = [].
Proof.
  destruct q as [|b q]; [done|]. intros Hq Hpre.
  apply prefix_cons_inv_1 in Hpre. subst. set_solver.
Qed.

(** A run that avoids [h] and starts the result of a scan starts the text
    scanned: the scan copies the text up to the first replacement. *)
Lemma prefix_replaceAll_scan p h r s pos rest q :
  DOLLAR ∉ h :: r → h ∉ q →
  q `prefix_of` replaceAll_scan p (h :: r) s pos 0 rest →
  q `prefix_of` rest.
Proof.
  intros Hlit. revert pos q.
  induction rest as [|c rest IH]; intros pos q Hq; cbn [replaceAll_scan];
    rewrite ?getSubstitution_literal by done.
  - case_decide; [|done]. intros Hpre.
    rewrite (prefix_head_absent _ _ _ Hq Hpre). apply prefix_nil.
  - case_decide.
    + intros Hpre. rewrite (prefix_head_absent _ _ _ Hq Hpre). apply prefix_nil.
    + destruct q as [|b q]; [intros; apply prefix_nil|]. intros Hpre.
      pose proof (prefix_cons_inv_1 _ _ _ _ Hpre) as ->.
      apply prefix_cons, (IH (S pos)); [set_solver|].
      by eapply prefix_cons_inv_2.
Qed.

(** An occurrence whose first code unit is not in [r] lies after [r]. *)
Lemma contains_after b q r s :
  b ∉ r → contains (b :: q) (r ++ s) → contains (b :: q) s.
Proof.
  induction r as [|c r IH]; [done|]. intros Hb. cbn. rewrite contains_cons.
  intros [Hpre|Hin].
  - apply prefix_cons_inv_1 in Hpre. set_solver.
  - apply IH; [set_solver|done].
Qed.

(** [replaceAll] brings in no occurrence of [b :: q], when [b] is not a
    code unit of the template and the template starts with a code unit
    outside [b :: q]. *)
Lemma contains_replaceAll_scan p h r s pos skip rest b q :
  p ≠ [] → DOLLAR ∉ h :: r → b ∉ h :: r → h ∉ b :: q →
  contains (b :: q) (replaceAll_scan p (h :: r) s pos skip rest) →
  contains (b :: q) rest.
Proof.
  intros Hp Hlit Hb Hh. revert pos skip.
  induction rest as [|c rest IH]; intros pos skip; cbn [replaceAll_scan].
  - destruct skip; [|done]. by rewrite decide_False.
  - destruct skip as [|k].
    + case_decide as Hpre.
      * rewrite getSubstitution_literal by done. intros Hin.
        apply contains_after in Hin; [|done].
        destruct (length p) eqn:Hlen; [by destruct p|].
        rewrite contains_cons. right. by eapply IH.
      * rewrite !contains_cons. intros [Hq|Hin]; [left|right; by eapply IH].
        pose proof (prefix_cons_inv_1 _ _ _ _ Hq) as ->.
        apply prefix_cons. eapply (prefix_replaceAll_scan _ _ _ _ (S pos)); [done| |].
        -- set_solver.
        -- by eapply prefix_cons_inv_2.
    + rewrite contains_cons. intros Hin. right. by eapply IH.
Qed.

(** [replaceAll] leaves no occurrence of its pattern [a :: p], when [a] is
    not a code unit of the template and the template starts with a code
    unit outside the pattern. *)
Lemma replaceAll_scan_gone a p h r s pos skip rest :
  DOLLAR ∉ h :: r → a ∉ h :: r → h ∉ a :: p →
  ¬ contains (a :: p) (replaceAll_scan (a :: p) (h :: r) s pos skip rest).
Proof.
  intros Hlit Ha Hh. revert pos skip.
  induction rest as [|c rest IH]; intros pos skip; cbn [replaceAll_scan].
  - destruct skip; [|by apply contains_nil]. rewrite decide_False by done.
    by apply contains_nil.
  - destruct skip as [|k]; [|by apply IH].
    case_decide as Hpre.
    + rewrite getSubstitution_literal by done. intros Hin.
      apply contains_after in Hin; [|done]. cbn [length] in Hin. by eapply IH.
    + rewrite contains_cons. intros [Hq|Hin]; [|by eapply IH].
      destruct Hpre.
      pose proof (prefix_cons_inv_1 _ _ _ _ Hq) as ->.
      apply prefix_cons. eapply (prefix_replaceAll_scan _ _ _ _ (S pos)); [done| |].
      * set_solver.
      * by eapply prefix_cons_inv_2.
Qed.

End StringFacts.

(** ** The import rewriter *)

Section FixImports.

Implicit Types x p : str.

Lemma fixImports_rules x cA lA :
  fixImports x cA lA = foldl apply_rule x (rewriter_rules cA lA).
Proof. reflexivity. Qed.

Lemma rewriter_rules_patterns cA lA :
  pattern <$> rewriter_rules cA lA = rewriter_patterns.
Proof. reflexivity. Qed.

Lemma occurrences_0 p s : occurrences p s = 0 ↔ ¬ contains p s.
Proof.
  induction s as [|c s IH]; cbn [occurrences]; case_decide as Hpre.
  - split; [done|]. intros []. by apply contains_prefix.
  - split; [|done]. intros _ Hin. destruct Hpre.
    destruct Hin as (u & v & Huv). symmetry in Huv.
    apply app_eq_nil in Huv as [_ Huv]. apply app_eq_nil in Huv as [-> _].
    by exists [].
  - split; [done|]. intros []. by apply contains_prefix.
  - rewrite contains_cons. cbn. rewrite IH. tauto.
Qed.

Lemma alias_safe_inv alias :
  alias_safe alias = true →
  ∃ h t, alias = h :: t ∧ (DOLLAR ∉ alias) ∧ (FULL_STOP ∉ alias) ∧
         (COMMERCIAL_AT ∉ alias) ∧ ∀ p, p ∈ directory_patterns → h ∉ p.
Proof.
  unfold alias_safe. intros Hsafe.
  apply andb_prop in Hsafe as [Hchars Hhead].
  apply bool_decide_eq_true in Hchars as (? & ? & ?).
  destruct alias as [|h t]; [done|].
  apply bool_decide_eq_true in Hhead. rewrite Forall_forall in Hhead.
  by exists h, t.
Qed.

Lemma replaceAll_gone a p h r s :
  DOLLAR ∉ h :: r → a ∉ h :: r → h ∉ a :: p →
  ¬ contains (a :: p) (replaceAll (a :: p) (h :: r) s).
Proof. apply replaceAll_scan_gone. Qed.

Lemma replaceAll_keeps_absent p h r s b q :
  p ≠ [] → DOLLAR ∉ h :: r → b ∉ h :: r → h ∉ b :: q →
  ¬ contains (b :: q) s → ¬ contains (b :: q) (replaceAll p (h :: r) s).
Proof.
  intros ???? Hs Hin. apply Hs. by eapply contains_replaceAll_scan.
Qed.

End FixImports.

(** A closed decidable proposition, by evaluation. *)
Ltac by_evaluation := apply (bool_decide_unpack _); vm_compute; exact I.

Section FixImportsClaims.

Implicit Types x p u v : str.

Lemma not_contains_includes p s : includes p s = false → ¬ contains p s.
Proof. intros Hf Hin. apply includes_spec in Hin. congruence. Qed.

(** C1 (amended): for each of the three directory patterns
    ([../../components], [../../lib], [@rnr]), which are given to
    [replaceAll], the result of [fixImports] has no occurrence left,
    however many the text has, when both aliases are non-empty, have no
    [$], [.] or [@], and start with a code unit that is in none of these
    patterns. *)
Theorem fixImports_directory_patterns_gone x cA lA p :
  alias_safe cA = true → alias_safe lA = true →
  p ∈ directory_patterns →
  occurrences p (fixImports x cA lA) = 0.
Proof.
  intros HcA HlA Hp. apply occurrences_0.
  apply alias_safe_inv in HcA as (hc & tc & -> & Hc1 & Hc2 & Hc3 & Hc4).
  apply alias_safe_inv in HlA as (hl & tl & -> & Hl1 & Hl2 & Hl3 & Hl4).
  assert (Hprim : ∀ c, c ∉ hc :: tc → c ∉ lit "/primitives" →
                       c ∉ hc :: (tc ++ lit "/primitives")).
  { intros c ? ?. change (c ∉ (hc :: tc) ++ lit "/primitives").
    rewrite not_elem_of_app. done. }
  unfold fixImports. cbn zeta.
  set (s3 := replace (lit "./text") _ _). clearbody s3.
  change ((hc :: tc) ++ lit "/primitives") with (hc :: (tc ++ lit "/primitives")).
  unfold directory_patterns in Hp.
  repeat (apply elem_of_cons in Hp as [->|Hp]); [| | |by apply elem_of_nil in Hp].
  - apply (replaceAll_keeps_absent _ hc _ _ FULL_STOP (lit "./../components"));
      [done|apply Hprim; [done|by_evaluation]..|apply Hc4; by_evaluation|].
    apply (replaceAll_keeps_absent _ hl _ _ FULL_STOP (lit "./../components"));
      [done..|apply Hl4; by_evaluation|].
    apply (replaceAll_gone FULL_STOP (lit "./../components"));
      [done..|apply Hc4; by_evaluation].
  - apply (replaceAll_keeps_absent _ hc _ _ FULL_STOP (lit "./../lib"));
      [done|apply Hprim; [done|by_evaluation]..|apply Hc4; by_evaluation|].
    apply (replaceAll_gone FULL_STOP (lit "./../lib"));
      [done..|apply Hl4; by_evaluation].
  - apply (replaceAll_gone COMMERCIAL_AT (lit "rnr"));
      [apply Hprim; [done|by_evaluation]..|apply Hc4; by_evaluation].
Qed.

Lemma fixImports_directory_patterns_gone_witness :
  occurrences (lit "@rnr")
    (fixImports (lit "import '@rnr/a'; import '@rnr/b'; import '@rnr/c';")
                (lit "~/components") (lit "~/lib")) = 0.
Proof.
  apply fixImports_directory_patterns_gone.
  - vm_compute. reflexivity.
  - vm_compute. reflexivity.
  - by_evaluation.
Defined.

(** C1, as stated, fails: of three occurrences of the pattern [../Icons]
    two are left, and an alias can bring a directory pattern back. *)
Lemma fixImports_every_occurrence_counterexample :
  let x := lit "from '../Icons'; from '../Icons'; from '../Icons';" in
  let y := lit "from '@rnr/a'; from '@rnr/b'; from '@rnr/c';" in
  lit "../Icons" ∈ rewriter_patterns ∧
  occurrences (lit "../Icons") x = 3 ∧
  fixImports x (lit "~/components") (lit "~/lib")
    = lit "from '~/components/Icons'; from '../Icons'; from '../Icons';" ∧
  occurrences (lit "../Icons") (fixImports x (lit "~/components") (lit "~/lib")) = 2 ∧
  lit "@rnr" ∈ rewriter_patterns ∧
  occurrences (lit "@rnr") y = 3 ∧
  occurrences (lit "@rnr") (fixImports y (lit "@rnr") (lit "~/lib")) = 3.
Proof.
  cbn zeta. split_and!; [by_evaluation|vm_compute; reflexivity..|by_evaluation| |];
    vm_compute; reflexivity.
Qed.

(** C7: once the result of [fixImports] has no occurrence of any of the six
    patterns, applying [fixImports] again with the same aliases changes
    nothing. *)
Theorem fixImports_idempotent x cA lA :
  (∀ p, p ∈ rewriter_patterns → ¬ contains p (fixImports x cA lA)) →
  fixImports (fixImports x cA lA) cA lA = fixImports x cA lA.
Proof.
  generalize (fixImports x cA lA) as y. intros y Hy.
  unfold fixImports. cbn zeta.
  rewrite (replace_absent (lit "../Icons")) by (apply Hy; by_evaluation).
  rewrite (replace_absent (lit "./typography")) by (apply Hy; by_evaluation).
  rewrite (replace_absent (lit "./text")) by (apply Hy; by_evaluation).
  rewrite (replaceAll_absent (lit "../../components")) by (apply Hy; by_evaluation).
  rewrite (replaceAll_absent (lit "../../lib")) by (apply Hy; by_evaluation).
  by rewrite (replaceAll_absent (lit "@rnr")) by (apply Hy; by_evaluation).
Qed.

Lemma fixImports_idempotent_witness :
  let x := lit "import { cn } from '../../lib/utils'; import '@rnr/slot';" in
  fixImports (fixImports x (lit "~/components") (lit "~/lib"))
             (lit "~/components") (lit "~/lib")
  = fixImports x (lit "~/components") (lit "~/lib").
Proof.
  cbn zeta. apply fixImports_idempotent.
  intros p Hp. apply not_contains_includes.
  unfold rewriter_patterns in Hp.
  repeat (apply elem_of_cons in Hp as [->|Hp]); [..|by apply elem_of_nil in Hp];
    vm_compute; reflexivity.
Defined.

(** C9: the three single-file patterns are given to [replace], which
    rewrites the first occurrence only and leaves the text after it as it
    is; the three directory patterns are given to [replaceAll]; every rule
    matches its pattern as a run of code units, whatever precedes and
    follows it, so that [../Icons] is also rewritten inside [../../Icons]. *)
Theorem fixImports_substring_matching cA lA rule u v :
  rule ∈ rewriter_rules cA lA →
  (∀ u' v', u ++ pattern rule ++ v = u' ++ pattern rule ++ v' →
            length u ≤ length u') →
  let s := u ++ pattern rule ++ v in
  let e := getSubstitution (pattern rule) s (length u) (template rule) in
  (∀ x, fixImports x cA lA = foldl apply_rule x (rewriter_rules cA lA)) ∧
  match replaced rule with
  | FirstOccurrence =>
      pattern rule ∈ single_file_patterns ∧ apply_rule s rule = u ++ e ++ v
  | EveryOccurrence =>
      pattern rule ∈ directory_patterns ∧
      ∃ rest, apply_rule s rule = u ++ e ++ rest
  end ∧
  fixImports (lit "from '../../Icons'") (lit "~/components") (lit "~/lib")
    = lit "from '../~/components/Icons'" ∧
  fixImports (lit "'./text' './text'") (lit "~/components") (lit "~/lib")
    = lit "'~/components/ui/text' './text'".
Proof.
  intros Hrule Hfirst s e.
  split; [done|]. split; [|split; vm_compute; reflexivity].
  unfold rewriter_rules in Hrule.
  repeat (apply elem_of_cons in Hrule as [->|Hrule]);
    [..|by apply elem_of_nil in Hrule]; cbn [replaced pattern template] in *.
  1-3: split; [by_evaluation|]; by apply replace_first.
  all: split; [by_evaluation|]; eexists; subst s e; unfold apply_rule, replaceAll;
    cbn [replaced pattern template];
    rewrite replaceAll_scan_first by done; reflexivity.
Qed.

Lemma fixImports_substring_matching_witness :
  let rule := {| replaced := FirstOccurrence; pattern := lit "../Icons";
                 template := lit "~/components" ++ lit "/Icons" |} in
  apply_rule (lit "'../" ++ pattern rule ++ lit "' '../Icons'") rule
  = lit "'../" ++ lit "~/components/Icons" ++ lit "' '../Icons'".
Proof.
  intros rule.
  assert (Hrule : rule ∈ rewriter_rules (lit "~/components") (lit "~/lib"))
    by apply list_elem_of_here.
  assert (Hfirst : ∀ u' v',
    lit "'../" ++ pattern rule ++ lit "' '../Icons'" = u' ++ pattern rule ++ v' →
    length (lit "'../") ≤ length u').
  { intros u' v' Heq.
    destruct u' as [|? [|? [|? [|? u']]]]; cbn; try lia; by vm_compute in Heq. }
  exact (proj2 (proj1 (proj2
    (fixImports_substring_matching _ _ rule _ _ Hrule Hfirst)))).
Defined.

End FixImportsClaims.

(** ** Paths *)

Section PathFacts.

Import NodePath.

Implicit Types a b p : str.
Implicit Types segs stk : list str.

Lemma reverse_nil_inv {A} (l : list A) : reverse l = [] → l = [].
Proof.
  intros Hl. apply (f_equal length) in Hl. rewrite length_reverse in Hl.
  by destruct l.
Qed.

Lemma split_slash_cons_nonempty p : split_slash p ≠ [].
Proof.
  destruct p as [|c p]; [done|]. cbn. case_decide; [done|].
  by destruct (split_slash p).
Qed.

Lemma split_slash_app a b :
  split_slash (a ++ SLASH :: b) = split_slash a ++ split_slash b.
Proof.
  induction a as [|c a IH]; cbn.
  - by rewrite decide_True.
  - case_decide; [by rewrite IH|]. rewrite IH.
    pose proof (split_slash_cons_nonempty a).
    by destruct (split_slash a).
Qed.

Lemma split_slash_no_slash p : Forall (λ seg, SLASH ∉ seg) (split_slash p).
Proof.
  induction p as [|c p IH]; cbn.
  - repeat constructor. apply not_elem_of_nil.
  - case_decide.
    + constructor; [apply not_elem_of_nil|done].
    + assert (SLASH ≠ c) by (by intros <-).
      destruct (split_slash p) as [|seg segs].
      * repeat constructor. apply not_elem_of_cons. split; [done|apply not_elem_of_nil].
      * inversion_clear IH. constructor; [|done]. by apply not_elem_of_cons.
Qed.

Lemma split_slash_atom seg : SLASH ∉ seg → split_slash seg = [seg].
Proof.
  induction seg as [|c seg IH]; [done|]. intros Hseg.
  apply not_elem_of_cons in Hseg as [? ?]. cbn.
  rewrite decide_False by done. by rewrite IH.
Qed.

(** Splitting what [join_slash] has joined gives the segments back. *)
Lemma split_join_slash segs :
  segs ≠ [] → Forall (λ seg, SLASH ∉ seg) segs →
  split_slash (join_slash segs) = segs.
Proof.
  induction segs as [|seg segs IH]; [done|]. intros _ Hsegs.
  inversion_clear Hsegs as [|? ? Hseg Hrest].
  destruct segs as [|seg' segs].
  - by apply split_slash_atom.
  - change (join_slash (seg :: seg' :: segs))
      with (seg ++ SLASH :: join_slash (seg' :: segs)).
    rewrite split_slash_app, split_slash_atom by done.
    by rewrite IH.
Qed.

Lemma normalize_step_kept stk seg :
  Forall kept stk → SLASH ∉ seg → Forall kept (normalize_step false stk seg).
Proof.
  intros Hstk Hseg. unfold normalize_step.
  repeat case_decide; try done.
  - destruct stk as [|top stk]; [done|].
    case_decide; [done|]. by inversion Hstk.
  - constructor; [|done]. unfold kept. tauto.
Qed.

Lemma normalize_steps_kept stk segs :
  Forall kept stk → Forall (λ seg, SLASH ∉ seg) segs →
  Forall kept (foldl (normalize_step false) stk segs).
Proof.
  revert stk. induction segs as [|seg segs IH]; intros stk Hstk Hsegs; [done|].
  inversion_clear Hsegs. cbn. apply IH; [|done]. by apply normalize_step_kept.
Qed.

Lemma normalize_segments_kept p : Forall kept (normalize_segments false p).
Proof. apply normalize_steps_kept; [done|apply split_slash_no_slash]. Qed.

(** Kept segments are pushed back as they are. *)
Lemma normalize_steps_reverse stk stk' :
  Forall kept stk →
  foldl (normalize_step false) stk' (reverse stk) = stk ++ stk'.
Proof.
  induction stk as [|seg stk IH]; intros Hstk; [done|].
  inversion_clear Hstk as [|? ? Hseg ?]. destruct Hseg as (? & ? & ? & ?).
  rewrite reverse_cons, foldl_app, IH by done. cbn.
  unfold normalize_step. rewrite decide_False by tauto.
  by rewrite decide_False.
Qed.

(** Segments other than [..] leave what is kept in place. *)
Lemma normalize_steps_suffix stk segs :
  DOTDOT ∉ segs → stk `suffix_of` foldl (normalize_step false) stk segs.
Proof.
  revert stk. induction segs as [|seg segs IH]; intros stk Hsegs; [done|].
  apply not_elem_of_cons in Hsegs as [? ?]. cbn.
  etrans; [|by apply IH]. unfold normalize_step.
  case_decide; [done|]. rewrite decide_False by done. by apply suffix_cons_r.
Qed.

Lemma join_slash_nil_inv segs :
  Forall kept segs → join_slash segs = [] → segs = [].
Proof.
  destruct segs as [|seg segs]; [done|]. intros Hsegs.
  inversion_clear Hsegs as [|? ? Hseg ?]. destruct Hseg as (? & ?).
  destruct segs; cbn; [done|]. by destruct seg.
Qed.

(** The segments of an absolute path, rendered and read again. *)
Lemma normalize_segments_render stk tail :
  Forall kept stk → tail = [] ∨ tail = [SLASH] →
  normalize_segments false (SLASH :: join_slash (reverse stk) ++ tail) = stk.
Proof.
  intros Hstk Htail. unfold normalize_segments.
  assert (Hfold : ∀ more, Forall (λ seg, seg = []) more →
    foldl (normalize_step false) [] (([] : str) :: reverse stk ++ more) = stk).
  { intros more Hmore. cbn. rewrite foldl_app, normalize_steps_reverse by done.
    rewrite app_nil_r. induction Hmore as [|? ? -> _ IH]; [done|]. by cbn. }
  destruct (decide (stk = [])) as [->|Hne].
  { destruct Htail as [->| ->]; by vm_compute. }
  assert (reverse stk ≠ []) by (by intros ?%reverse_nil_inv).
  assert (Forall (λ seg, SLASH ∉ seg) (reverse stk)).
  { apply Forall_reverse. eapply Forall_impl; [done|]. by intros ? (? & ? & ? & ?). }
  destruct Htail as [->| ->].
  - rewrite app_nil_r. cbn [split_slash]. rewrite decide_True by done.
    rewrite split_join_slash by done.
    rewrite <-(app_nil_r (reverse stk)). by apply Hfold.
  - cbn [split_slash]. rewrite decide_True by done.
    rewrite split_slash_app, split_join_slash by done.
    apply Hfold. by repeat constructor.
Qed.

Lemma isAbsolute_cons p : isAbsolute p = true → ∃ p', p = SLASH :: p'.
Proof.
  unfold isAbsolute. intros Habs%bool_decide_eq_true.
  destruct p as [|c p]; [done|]. injection Habs as ->. by eexists.
Qed.

(** [normalize] keeps an absolute path absolute, and its segments. *)
Lemma normalize_absolute p :
  isAbsolute p = true →
  isAbsolute (normalize p) = true ∧
  normalize_segments false (normalize p) = normalize_segments false p.
Proof.
  intros Habs. destruct (isAbsolute_cons _ Habs) as [p' ->].
  unfold normalize. rewrite Habs. cbn [negb]. unfold normalizeString.
  pose proof (normalize_segments_kept (SLASH :: p')) as Hkept.
  set (stk := normalize_segments false (SLASH :: p')) in *.
  destruct (join_slash (reverse stk)) as [|c rendered] eqn:Hrender.
  - split; [done|].
    apply join_slash_nil_inv in Hrender; [|by apply Forall_reverse].
    apply reverse_nil_inv in Hrender. rewrite Hrender. by vm_compute.
  - split; [done|]. rewrite <-Hrender.
    case_bool_decide.
    + by apply normalize_segments_render; [|right].
    + rewrite <-(app_nil_r (join_slash _)). by apply normalize_segments_render; [|left].
Qed.

(** The segments of [path.join(a, b)] for an absolute [a]: those of [a]
    followed by those of [b]. *)
Lemma join_absolute a b :
  isAbsolute a = true →
  isAbsolute (join [a; b]) = true ∧
  normalize_segments false (join [a; b])
  = foldl (normalize_step false) (normalize_segments false a) (split_slash b).
Proof.
  intros Habs. destruct (isAbsolute_cons _ Habs) as [a' ->].
  unfold join. rewrite filter_cons, decide_True by done.
  destruct b as [|c b].
  - rewrite filter_cons, decide_False by (by intros []). rewrite filter_nil.
    cbn [join_slash]. destruct (normalize_absolute (SLASH :: a') Habs) as [? ->].
    split; [done|]. by vm_compute.
  - rewrite filter_cons, decide_True by done. rewrite filter_nil.
    change (join_slash [SLASH :: a'; c :: b]) with ((SLASH :: a') ++ SLASH :: c :: b).
    destruct (normalize_absolute ((SLASH :: a') ++ SLASH :: c :: b)) as [? ->]; [done|].
    split; [done|]. unfold normalize_segments.
    by rewrite split_slash_app, foldl_app.
Qed.

End PathFacts.

(** ** The file installer *)

Section Installer.

Variable process_cwd : str.
Variable handleError_exits : bool.
Variable chalk_green : str → str.

Local Abbreviation fs_key := (fs_key process_cwd).
Local Abbreviation exists_in := (exists_in process_cwd).
Local Abbreviation is_under := (is_under process_cwd).
Local Abbreviation path_segments := (path_segments process_cwd).
Local Abbreviation source := (source process_cwd).
Local Abbreviation read_error := (read_error process_cwd).
Local Abbreviation write_possible := (write_possible process_cwd).
Local Abbreviation mkdir_possible := (mkdir_possible process_cwd).
Local Abbreviation target_dir_reachable := (target_dir_reachable process_cwd).
Local Abbreviation ensure_target_dir := (ensure_target_dir process_cwd).
Local Abbreviation skipped_message := (skipped_message chalk_green).
Local Abbreviation install_file := (install_file process_cwd handleError_exits).
Local Abbreviation writeFiles_entry :=
  (writeFiles_entry process_cwd handleError_exits chalk_green).
Local Abbreviation writeFiles := (writeFiles process_cwd handleError_exits chalk_green).

Implicit Types w : World.
Implicit Types e : PathEntry.
Implicit Types p : str.

Lemma filter_all {A} (P : A → Prop) `{∀ x, Decision (P x)} (l : list A) :
  Forall P l → filter P l = l.
Proof.
  induction 1 as [|x l Hx _ IH]; [done|].
  by rewrite filter_cons, decide_True, IH.
Qed.

(** The resolved form of an absolute path, and its segments. *)
Lemma fs_key_absolute p :
  NodePath.isAbsolute p = true →
  fs_key p = NodePath.SLASH
             :: NodePath.join_slash (reverse (NodePath.normalize_segments false p)).
Proof.
  intros Habs. destruct (isAbsolute_cons _ Habs) as [p' ->].
  unfold fs_key, NodePath.resolve. cbn [foldr].
  unfold NodePath.resolve_prepend at 2. cbn [snd fst]. rewrite Habs.
  unfold NodePath.resolve_prepend. cbn [snd negb].
  unfold NodePath.normalizeString, NodePath.normalize_segments.
  by rewrite split_slash_app, foldl_app.
Qed.

Lemma path_segments_absolute p :
  NodePath.isAbsolute p = true →
  path_segments p = reverse (NodePath.normalize_segments false p).
Proof.
  intros Habs. unfold path_segments. rewrite fs_key_absolute by done.
  pose proof (normalize_segments_kept p) as Hkept.
  set (stk := NodePath.normalize_segments false p) in *.
  cbn [NodePath.split_slash]. rewrite decide_True by done.
  rewrite filter_cons, decide_False by (by intros []).
  destruct (decide (stk = [])) as [->|Hne]; [done|].
  rewrite split_join_slash.
  - apply filter_all, Forall_reverse. eapply Forall_impl; [done|].
    by intros ? (? & ?).
  - by intros ?%reverse_nil_inv.
  - apply Forall_reverse. eapply Forall_impl; [done|]. by intros ? (? & ? & ? & ?).
Qed.

(** A destination whose folder and file have no [..] segment lies under
    the components directory. *)
Lemma destination_is_under config e :
  NodePath.isAbsolute (resolvedPaths_components config) = true →
  NodePath.DOTDOT ∉ NodePath.split_slash (to_folder e) →
  NodePath.DOTDOT ∉ NodePath.split_slash (to_file e) →
  is_under (resolvedPaths_components config) (destination config e).
Proof.
  intros Habs Hfolder Hfile. unfold is_under, destination, target_dir.
  destruct (join_absolute _ (to_folder e) Habs) as [Habs1 Hsegs1].
  destruct (join_absolute _ (to_file e) Habs1) as [Habs2 Hsegs2].
  rewrite !path_segments_absolute, Hsegs2, Hsegs1 by done.
  apply suffix_prefix_reverse.
  etrans; [apply (normalize_steps_suffix _ _ Hfolder)|].
  apply (normalize_steps_suffix _ _ Hfile).
Qed.

(** *** One file entry *)

(** The world once the target directory has been looked for and, if
    missing, created: the files are as before. *)
Lemma ensure_target_dir_run targetDir w :
  ∃ w1, ensure_target_dir targetDir w = (Ret tt, w1) ∧
        files w1 = files w ∧ dirs w ⊆ dirs w1 ∧
        answers w1 = answers w ∧ trace w1 = trace w.
Proof.
  unfold ensure_target_dir, bind, existsSync, mkdir_recursive, ret.
  destruct (exists_in w targetDir); cbn; eexists; split_and!; try done.
  apply union_subseteq_l.
Qed.

(** What one round of the loop does, case by case. *)
Lemma writeFiles_entry_run comp e config options w :
  let w1 := (ensure_target_dir (target_dir config e) w).2 in
  let conflict := negb (overwrite options) && exists_in w1 (destination config e) in
  let answer := default false (head (answers w)) in
  let asked :=
    if conflict then [PromptConfirm (overwrite_question e); SpinnerStop] else [] in
  let answers' := if conflict then tail (answers w) else answers w in
  let starting := SpinnerStart (lit "Installing " ++ name comp ++ lit "...") in
  writeFiles_entry comp e config options w =
    if conflict && negb answer then
      (Ret tt, {| files := files w; dirs := dirs w1; answers := answers';
                  trace := LoggerInfo (skipped_message comp) :: asked ++ trace w |})
    else
      match files w !! fs_key (source e) with
      | Some content =>
          (Ret tt,
           {| files := <[fs_key (destination config e) :=
                           fixImports content (aliases_components config)
                                      (aliases_lib config)]> (files w);
              dirs := dirs w1; answers := answers';
              trace := starting :: asked ++ trace w |})
      | None =>
          (if handleError_exits then Exit 1 else Ret tt,
           {| files := files w; dirs := dirs w1; answers := answers';
              trace := LoggerErrorValue (read_error (files w) (dirs w1) (source e))
                       :: starting
                       :: asked ++ trace w |})
      end.
Proof.
  destruct (ensure_target_dir_run (target_dir config e) w)
    as ([files1 dirs1 answers1 trace1] & Hrun & Hfiles & _ & Hanswers & Htrace).
  cbn in Hfiles, Hanswers, Htrace. subst files1 answers1 trace1.
  cbn zeta. unfold writeFiles_entry, bind at 1. rewrite Hrun. cbn [snd].
  unfold confirm_overwrite, install_file, existsSync, prompts_confirm, emit,
    readFile, writeFile, handleError, try_catch, process_exit, bind, ret.
  destruct (overwrite options); cbn [negb andb files dirs answers trace];
    [|destruct (exists_in _ (destination config e));
      cbn [negb andb files dirs answers trace];
      [destruct (default false (head (answers w)));
       cbn [negb andb files dirs answers trace]|]];
    destruct (files w !! fs_key (source e));
    try destruct handleError_exits; reflexivity.
Qed.

Lemma exists_in_ensure_target_dir targetDir w p :
  exists_in w p = true → exists_in (ensure_target_dir targetDir w).2 p = true.
Proof.
  destruct (ensure_target_dir_run targetDir w) as (w1 & -> & Hfiles & Hdirs & _).
  unfold exists_in. cbn [snd]. rewrite Hfiles.
  intros [?| Hdir%bool_decide_eq_true]%orb_prop; apply orb_true_iff; [by left|].
  right. apply bool_decide_eq_true. by apply Hdirs.
Qed.

(** C4: when the destination exists, [--overwrite] was not given and the
    operator does not consent, the round ends normally, no file has
    changed, and the loop goes on with the entries that remain. *)
Theorem writeFiles_declined_skips comp e rest config options w :
  exists_in w (destination config e) = true →
  overwrite options = false →
  head (answers w) ≠ Some true →
  ∃ w2, writeFiles_entry comp e config options w = (Ret tt, w2) ∧
        files w2 = files w ∧
        (∃ events, trace w2 = LoggerInfo (skipped_message comp) :: events ++ trace w) ∧
        writeFiles comp (e :: rest) config options w
        = writeFiles comp rest config options w2.
Proof.
  intros Hexists Hflag Hanswer.
  apply (exists_in_ensure_target_dir (target_dir config e)) in Hexists.
  pose proof (writeFiles_entry_run comp e config options w) as Hrun.
  cbn zeta in Hrun. rewrite Hflag, Hexists in Hrun. cbn [negb andb] in Hrun.
  assert (default false (head (answers w)) = false) as Hno.
  { destruct (head (answers w)) as [[]|]; done. }
  rewrite Hno in Hrun. cbn [negb] in Hrun.
  eexists. split; [exact Hrun|]. split; [done|]. split; [by eexists|].
  simpl (writeFiles _ (_ :: _) _ _). unfold bind at 1. by rewrite Hrun.
Qed.

(** What a round of the loop shows: the question, if there is a conflict,
    and then events that are not questions. *)
Lemma writeFiles_entry_trace comp e config options w :
  let w1 := (ensure_target_dir (target_dir config e) w).2 in
  let conflict := negb (overwrite options) && exists_in w1 (destination config e) in
  ∃ events,
    trace (writeFiles_entry comp e config options w).2
    = events
      ++ (if conflict then [PromptConfirm (overwrite_question e); SpinnerStop] else [])
      ++ trace w
    ∧ ∀ text, PromptConfirm text ∉ events.
Proof.
  cbn zeta. rewrite writeFiles_entry_run. cbn zeta.
  assert (Hone : ∀ ev : Event, (∀ text, PromptConfirm text ≠ ev) →
                               ∀ text, PromptConfirm text ∉ [ev]).
  { intros ev Hev text [?|Hin%elem_of_nil]%elem_of_cons; [by eapply Hev|done]. }
  assert (Htwo : ∀ ev1 ev2 : Event,
    (∀ text, PromptConfirm text ≠ ev1) → (∀ text, PromptConfirm text ≠ ev2) →
    ∀ text, PromptConfirm text ∉ [ev1; ev2]).
  { intros ev1 ev2 H1 H2 text [?|Hin]%elem_of_cons; [by eapply H1|].
    by eapply Hone. }
  destruct (_ && negb _).
  - eexists [_]. split; [done|]. by apply Hone.
  - destruct (files w !! fs_key (source e)).
    + eexists [_]. split; [done|]. by apply Hone.
    + eexists [_; _]. split; [done|]. by apply Htwo.
Qed.

(** Without a conflict a round is the write of lines 205 to 214, run once
    the target directory has been made sure of. *)
Lemma writeFiles_entry_straight comp e config options w :
  let w1 := (ensure_target_dir (target_dir config e) w).2 in
  negb (overwrite options) && exists_in w1 (destination config e) = false →
  writeFiles_entry comp e config options w = install_file comp e config w1.
Proof.
  destruct (ensure_target_dir_run (target_dir config e) w)
    as (w1 & Hrun & _).
  cbn zeta. unfold writeFiles_entry, bind at 1. rewrite Hrun. cbn [snd].
  unfold confirm_overwrite, existsSync, bind, ret.
  destruct (overwrite options); cbn [negb andb]; [done|].
  by intros ->.
Qed.

(** C5 (amended): when lines 182 to 184 go through, the operator is asked
    if and only if the destination exists when it is looked for (after the
    target directory has been made sure of) and [--overwrite] was not
    given.  In every other case, whatever the flag when the destination
    does not exist and whatever the destination when the flag is set,
    nothing is asked, no answer is used up, and the round goes straight to
    lines 205 to 214.  These put the rewritten source at the destination
    when the source can be read and the write can be carried out; when the
    source cannot be read, no file changes. *)
Theorem overwrite_prompt_iff comp e config options w :
  let w1 := (ensure_target_dir (target_dir config e) w).2 in
  let w' := (writeFiles_entry comp e config options w).2 in
  target_dir_reachable w (target_dir config e) →
  ∃ events, trace w' = events ++ trace w ∧
    ((∃ text, PromptConfirm text ∈ events) ↔
       exists_in w1 (destination config e) = true ∧ overwrite options = false) ∧
    (exists_in w1 (destination config e) = false ∨ overwrite options = true →
       writeFiles_entry comp e config options w = install_file comp e config w1 ∧
       answers w' = answers w ∧
       (∀ content, files w !! fs_key (source e) = Some content →
          write_possible w1 (destination config e) →
          files w' = <[fs_key (destination config e) :=
                         fixImports content (aliases_components config)
                                    (aliases_lib config)]> (files w)) ∧
       (files w !! fs_key (source e) = None → files w' = files w)).
Proof.
  cbn zeta. intros _.
  destruct (writeFiles_entry_trace comp e config options w)
    as (events & Htrace & Hnone).
  cbn zeta in Htrace. revert Htrace.
  pose proof (writeFiles_entry_straight comp e config options w) as Hstraight.
  cbn zeta in Hstraight. revert Hstraight.
  rewrite writeFiles_entry_run. cbn zeta.
  set (found := exists_in _ (destination config e)). clearbody found.
  intros Hstraight Htrace. eexists. split; [by rewrite Htrace, (assoc_L (++))|].
  destruct (negb (overwrite options) && found) eqn:Hconflict.
  - apply andb_prop in Hconflict as [Hflag%negb_true_iff ->].
    split; [split; [done|]|by intros [?|?]; congruence].
    intros _. eexists. apply elem_of_app. right. apply list_elem_of_here.
  - rewrite app_nil_r.
    assert (¬ (found = true ∧ overwrite options = false)) as Hfree.
    { intros [Hfound Hflag]. by rewrite Hfound, Hflag in Hconflict. }
    split; [split; [intros [text Hin]; by apply Hnone in Hin|done]|].
    intros _. split; [by apply Hstraight|]. cbn [andb].
    destruct (files w !! fs_key (source e)); cbn [snd answers files];
      (split; [done|]); (split; [|done]); [by intros ? [= <-]|done].
Qed.

(** C6: whatever a round of the loop writes is the source rewritten by
    [fixImports] with the aliases of the configuration, in place of what the
    destination held; and it is written whenever the entry is installed
    (forced, not in conflict, or consented), lines 182 to 184 go through,
    the source can be read and the write can be carried out. *)
Theorem installed_content_is_rewritten_source comp e config options w :
  let w1 := (ensure_target_dir (target_dir config e) w).2 in
  let w' := (writeFiles_entry comp e config options w).2 in
  (files w' = files w ∨
   ∃ content, files w !! fs_key (source e) = Some content ∧
     files w' = <[fs_key (destination config e) :=
                    fixImports content (aliases_components config)
                               (aliases_lib config)]> (files w)) ∧
  ∀ content,
    files w !! fs_key (source e) = Some content →
    overwrite options = true ∨ exists_in w1 (destination config e) = false
      ∨ head (answers w) = Some true →
    target_dir_reachable w (target_dir config e) →
    write_possible w1 (destination config e) →
    files w' !! fs_key (destination config e)
    = Some (fixImports content (aliases_components config) (aliases_lib config))
    ∧ ∀ k, k ≠ fs_key (destination config e) → files w' !! k = files w !! k.
Proof.
  cbn zeta. rewrite writeFiles_entry_run. cbn zeta.
  set (found := exists_in _ (destination config e)). clearbody found.
  split.
  - destruct (_ && negb _); [by left|].
    destruct (files w !! fs_key (source e)) as [content|]; [right; by eexists|by left].
  - intros content Hsource Hinstalled _ _. rewrite Hsource.
    assert (negb (overwrite options) && found
            && negb (default false (head (answers w))) = false) as ->.
    { destruct Hinstalled as [Hyes | [Hyes | Hyes]]; rewrite Hyes;
        destruct (overwrite options); try done; by destruct found. }
    cbn [snd files]. split; [apply lookup_insert_eq|].
    intros k Hk. by apply lookup_insert_ne.
Qed.

(** A round of the loop changes no file but the destination of its entry. *)
Lemma writeFiles_entry_frame comp e config options w k :
  files (writeFiles_entry comp e config options w).2 !! k ≠ files w !! k →
  k = fs_key (destination config e).
Proof.
  rewrite writeFiles_entry_run. cbn zeta.
  destruct (_ && negb _); [done|].
  destruct (files w !! fs_key (source e)); [|done]. cbn [snd files].
  intros Hk. destruct (decide (fs_key (destination config e) = k)); [done|].
  by rewrite lookup_insert_ne in Hk.
Qed.

(** C8 (amended): every file that [writeFiles] creates or changes is the
    destination [path.join(path.join(resolvedPaths.components, folder),
    file)] of an entry of the list, and this destination lies under
    [resolvedPaths.components] when that path is absolute and neither the
    folder nor the file of the entry has a [..] segment. *)
Theorem writeFiles_writes_destinations_only comp entries config options w k :
  files (writeFiles comp entries config options w).2 !! k ≠ files w !! k →
  ∃ e, e ∈ entries ∧ k = fs_key (destination config e) ∧
       (NodePath.isAbsolute (resolvedPaths_components config) = true →
        NodePath.DOTDOT ∉ NodePath.split_slash (to_folder e) →
        NodePath.DOTDOT ∉ NodePath.split_slash (to_file e) →
        is_under (resolvedPaths_components config) (destination config e)).
Proof.
  revert w. induction entries as [|e entries IH]; intros w; [done|].
  simpl (writeFiles _ (_ :: _) _ _). unfold bind at 1.
  pose proof (writeFiles_entry_frame comp e config options w k) as Hframe.
  destruct (writeFiles_entry comp e config options w) as [[[]|code|err] w2];
    cbn [snd] in *.
  - intros Hk.
    destruct (decide (files w2 !! k = files w !! k)) as [Heq|Hne].
    + rewrite <-Heq in Hk. destruct (IH _ Hk) as (e' & ? & ? & ?).
      exists e'. split_and!; [by apply list_elem_of_further|done..].
    + exists e. split_and!; [apply list_elem_of_here|by apply Hframe|].
      apply destination_is_under.
  - intros Hk. exists e. split_and!; [apply list_elem_of_here|by apply Hframe|].
    apply destination_is_under.
  - intros Hk. exists e. split_and!; [apply list_elem_of_here|by apply Hframe|].
    apply destination_is_under.
Qed.

End Installer.

(** *** The installer on the sample project *)

Section InstallerSamples.

Local Abbreviation writeFiles_entry := (writeFiles_entry Sample.process_cwd true id).
Local Abbreviation writeFiles := (writeFiles Sample.process_cwd true id).
Local Abbreviation fs_key := (fs_key Sample.process_cwd).
Local Abbreviation is_under := (is_under Sample.process_cwd).

Lemma writeFiles_declined_skips_witness :
  ∃ w2, writeFiles_entry Sample.button Sample.button_entry Sample.config
          (Sample.options false) (Sample.world [false]) = (Ret tt, w2) ∧
        files w2 = files (Sample.world [false]) ∧
        (∃ events, trace w2 = LoggerInfo (skipped_message id Sample.button)
                              :: events ++ trace (Sample.world [false])) ∧
        writeFiles Sample.button [Sample.button_entry] Sample.config
          (Sample.options false) (Sample.world [false])
        = writeFiles Sample.button [] Sample.config (Sample.options false) w2.
Proof.
  apply (writeFiles_declined_skips Sample.process_cwd true id).
  - vm_compute. reflexivity.
  - reflexivity.
  - vm_compute. discriminate.
Defined.

Lemma overwrite_prompt_iff_witness :
  let w := Sample.world [false] in
  let w' := (writeFiles_entry Sample.button Sample.button_entry Sample.config
               (Sample.options true) w).2 in
  target_dir_reachable Sample.process_cwd w (target_dir Sample.config Sample.button_entry) ∧
  answers w' = answers w ∧
  files w' !! lit "/app/components/ui/button.tsx"
  = Some (lit "import { cn } from '~/lib/utils';").
Proof.
  intros w w'.
  assert (target_dir_reachable Sample.process_cwd w
            (target_dir Sample.config Sample.button_entry)) as Hdir.
  { left. vm_compute. reflexivity. }
  split; [exact Hdir|].
  destruct (overwrite_prompt_iff Sample.process_cwd true id Sample.button
              Sample.button_entry Sample.config (Sample.options true) w Hdir)
    as (events & _ & _ & Hforced).
  destruct Hforced as (_ & Hanswers & Hfiles & _); [by right|].
  split; [exact Hanswers|].
  unfold w'. rewrite (Hfiles Sample.button_source).
  - vm_compute. reflexivity.
  - vm_compute. reflexivity.
  - unfold write_possible, directory_at. by_evaluation.
Defined.

(** C5, as stated, fails: the destination of the card does not exist, and
    with or without [--overwrite] it is not written, because the source
    cannot be read. *)
Lemma unreadable_source_not_written_counterexample :
  let w := Sample.fresh_world in
  let dest := lit "/app/components/ui/card.tsx" in
  let after force :=
    (writeFiles_entry Sample.button Sample.card_entry Sample.config
       (Sample.options force) w).2 in
  fs_key (destination Sample.config Sample.card_entry) = dest ∧
  exists_in Sample.process_cwd w dest = false ∧
  exists_in Sample.process_cwd (after false) dest = false ∧
  exists_in Sample.process_cwd (after true) dest = false ∧
  files (after false) = files w ∧ files (after true) = files w.
Proof.
  cbn zeta. split_and!; vm_compute; reflexivity.
Qed.

Lemma installed_content_is_rewritten_source_witness :
  let w := Sample.world [true] in
  let w' := (writeFiles_entry Sample.button Sample.button_entry Sample.config
               (Sample.options false) w).2 in
  files w !! lit "/app/components/ui/button.tsx" = Some (lit "old") ∧
  files w' !! lit "/app/components/ui/button.tsx"
  = Some (fixImports Sample.button_source (lit "~/components") (lit "~/lib")).
Proof.
  intros w w'. split; [vm_compute; reflexivity|].
  refine (proj1 (proj2 (installed_content_is_rewritten_source Sample.process_cwd
                   true id Sample.button Sample.button_entry Sample.config
                   (Sample.options false) w) Sample.button_source _ _ _ _)).
  - vm_compute. reflexivity.
  - right. right. reflexivity.
  - left. vm_compute. reflexivity.
  - unfold write_possible, directory_at. by_evaluation.
Defined.

Lemma writeFiles_writes_destinations_only_witness :
  ∃ e, e ∈ [Sample.button_entry] ∧
       lit "/app/components/ui/button.tsx" = fs_key (destination Sample.config e) ∧
       (NodePath.isAbsolute (resolvedPaths_components Sample.config) = true →
        NodePath.DOTDOT ∉ NodePath.split_slash (to_folder e) →
        NodePath.DOTDOT ∉ NodePath.split_slash (to_file e) →
        is_under (resolvedPaths_components Sample.config)
                 (destination Sample.config e)).
Proof.
  apply (writeFiles_writes_destinations_only Sample.process_cwd true id
           Sample.button [Sample.button_entry] Sample.config (Sample.options false)
           (Sample.world [true])).
  by_evaluation.
Defined.

(** C8, as stated, fails: an entry whose folder is [../../etc] is written
    to [/etc], outside [resolvedPaths.components]. *)
Lemma writeFiles_escapes_counterexample :
  let w := Sample.fresh_world in
  let w' := (writeFiles Sample.button [Sample.escaping_entry] Sample.config
               (Sample.options false) w).2 in
  resolvedPaths_components Sample.config = lit "/app/components" ∧
  destination Sample.config Sample.escaping_entry = lit "/etc/button.tsx" ∧
  files w !! lit "/etc/button.tsx" = None ∧
  files w' !! lit "/etc/button.tsx" = Some (lit "import { cn } from '~/lib/utils';") ∧
  ¬ is_under (lit "/app/components") (lit "/etc/button.tsx").
Proof.
  cbn zeta. split_and!; try (vm_compute; reflexivity).
  unfold is_under. by_evaluation.
Qed.

End InstallerSamples.

(** ** The [add] action *)

Section AddAction.

Variable process_cwd : str.
Variable handleError_exits : bool.
Variable chalk_green : str → str.
Variable COMPONENTS : list Component.
Variable INVALID_COMPONENT_ERROR : str.

Local Abbreviation add_selected :=
  (add_selected process_cwd handleError_exits chalk_green COMPONENTS
                INVALID_COMPONENT_ERROR).
Local Abbreviation find_component := (find_component COMPONENTS).
Local Abbreviation invalid_components := (invalid_components COMPONENTS).

Implicit Types w : World.
Implicit Types n : str.

Lemma find_component_None n :
  find_component n = None ↔ ¬ ∃ c, c ∈ COMPONENTS ∧ name c = n.
Proof.
  unfold find_component. split.
  - intros Hnone (c & Hc & Hname). apply list_elem_of_In in Hc.
    pose proof (find_none _ _ Hnone c Hc) as Hno. cbn in Hno.
    by rewrite bool_decide_eq_false in Hno.
  - intros Hno. destruct (find _ _) as [c|] eqn:Hfind; [|done].
    apply find_some in Hfind as [Hc Hname%bool_decide_eq_true].
    destruct Hno. exists c. by rewrite list_elem_of_In.
Qed.

Lemma find_component_Some n c :
  find_component n = Some c → c ∈ COMPONENTS ∧ name c = n.
Proof.
  unfold find_component. intros [Hc Hname%bool_decide_eq_true]%find_some.
  by rewrite list_elem_of_In.
Qed.

Lemma invalid_components_spec selected n :
  n ∈ invalid_components selected
  ↔ n ∈ selected ∧ ¬ ∃ c, c ∈ COMPONENTS ∧ name c = n.
Proof.
  unfold invalid_components. rewrite list_elem_of_filter, find_component_None.
  split; intros [? ?]; by split.
Qed.

(** C10: when the resolver throws anything but the invalid-component
    error, the action logs it, installs nothing, reports [Done.] and
    returns, which leaves the exit code at 0. *)
Theorem add_other_error_completes getAllComponentsToWrite
    selected config options w err :
  selected ≠ [] →
  getAllComponentsToWrite selected = inl err →
  ¬ (instanceofError err = true ∧ message err = INVALID_COMPONENT_ERROR) →
  ∃ w', add_selected getAllComponentsToWrite selected config options w
        = (Ret tt, w') ∧
        exit_code (add_selected getAllComponentsToWrite selected config options w).1
        = Some 0 ∧
        files w' = files w ∧ dirs w' = dirs w ∧
        trace w' = [SpinnerSucceed (lit "Done."); LoggerErrorValue err;
                    SpinnerStart (lit "Installing components...")] ++ trace w.
Proof.
  intros Hselected Hthrown Hother.
  unfold add_selected, try_catch, bind, emit, ret, process_exit.
  rewrite Hthrown.
  destruct selected as [|n selected]; [done|].
  assert (instanceofError err
          && bool_decide (message err = INVALID_COMPONENT_ERROR) = false) as ->.
  { apply andb_false_iff. destruct (instanceofError err); [right|by left].
    apply bool_decide_eq_false. intros Hmessage. by apply Hother. }
  cbn. eexists. by split_and!.
Qed.

(** [join] puts the separator between the items, and nothing else. *)
Lemma array_join_concat (separator : str) (items : list str) :
  items ≠ [] →
  array_join separator items ++ separator
  = concat ((λ item, item ++ separator) <$> items).
Proof.
  induction items as [|item [|item' rest] IH]; intros Hitems; [done| |].
  - cbn. by rewrite app_nil_r.
  - change (array_join separator (item :: item' :: rest))
      with (item ++ separator ++ array_join separator (item' :: rest)).
    rewrite fmap_cons. cbn [concat].
    rewrite <-IH by done. by rewrite <-!(assoc_L (++)).
Qed.

Lemma array_join_occurs (separator : str) (items : list str) n :
  n ∈ items → ∃ before after, array_join separator items = before ++ n ++ after.
Proof.
  induction items as [|item [|item' rest] IH]; intros Hn.
  - by apply elem_of_nil in Hn.
  - apply list_elem_of_singleton in Hn as ->. exists [], []. cbn.
    by rewrite app_nil_r.
  - change (array_join separator (item :: item' :: rest))
      with (item ++ separator ++ array_join separator (item' :: rest)).
    apply elem_of_cons in Hn as [->|Hn].
    + exists [], (separator ++ array_join separator (item' :: rest)). done.
    + destruct (IH Hn) as (before & after & ->).
      exists (item ++ separator ++ before), after.
      by rewrite <-!(assoc_L (++)).
Qed.

(** C2: when some requested name is not in the catalog, the resolver fails
    with an [UnknownComponentError] that lists the requested names that are
    not in the catalog, all of them and no other; the action reports
    exactly these names, exits with code 1, and has written no file.  The
    report is [Invalid component(s): ] followed by the names, each of which
    occurs in it, with [, ] between them and nothing else. *)
Theorem add_unknown_components selected config options w :
  (∃ n, n ∈ selected ∧ ¬ ∃ c, c ∈ COMPONENTS ∧ name c = n) →
  ∃ invalid w',
    Resolver.resolve COMPONENTS selected
      = inl (Resolver.UnknownComponentError invalid) ∧
    (∀ n, n ∈ invalid ↔ n ∈ selected ∧ ¬ ∃ c, c ∈ COMPONENTS ∧ name c = n) ∧
    add_selected (Resolver.getAllComponentsToWrite COMPONENTS INVALID_COMPONENT_ERROR)
                 selected config options w
      = (Exit 1, w') ∧
    files w' = files w ∧ dirs w' = dirs w ∧
    trace w' = [LoggerError (lit "Invalid component(s): "
                             ++ array_join (lit ", ") invalid);
                SpinnerStart (lit "Installing components...")] ++ trace w ∧
    (∃ report,
       trace w' = [LoggerError report;
                   SpinnerStart (lit "Installing components...")] ++ trace w ∧
       report ++ lit ", "
       = lit "Invalid component(s): " ++ concat ((λ n, n ++ lit ", ") <$> invalid) ∧
       ∀ n, n ∈ invalid →
            ∃ before after,
              report = lit "Invalid component(s): " ++ before ++ n ++ after).
Proof.
  intros (n & Hn & Habsent).
  assert (n ∈ invalid_components selected) as Hinvalid
    by by apply invalid_components_spec.
  pose proof (invalid_components_spec selected) as Hspec.
  assert (Hresolve : Resolver.resolve COMPONENTS selected
    = inl (Resolver.UnknownComponentError (invalid_components selected))).
  { unfold Resolver.resolve. fold (invalid_components selected).
    destruct (invalid_components selected); [by apply elem_of_nil in Hinvalid|done]. }
  exists (invalid_components selected).
  unfold add_selected, Resolver.getAllComponentsToWrite, try_catch, bind, emit, ret,
    process_exit.
  rewrite Hresolve.
  pose proof (array_join_concat (lit ", ") (invalid_components selected)) as Hjoin.
  pose proof (array_join_occurs (lit ", ") (invalid_components selected)) as Hoccurs.
  remember (invalid_components selected) as invalid eqn:Hinvalid_eq.
  remember (array_join (lit ", ") invalid) as names eqn:Hnames.
  remember (lit "Invalid component(s): ") as heading eqn:Hheading.
  remember (lit ", ") as separator eqn:Hseparator.
  destruct selected as [|n' selected]; [by apply elem_of_nil in Hn|].
  cbn [Resolver.thrown instanceofError message andb].
  rewrite bool_decide_eq_true_2 by done. cbn.
  eexists. split_and!; try done.
  exists (heading ++ names). split_and!; [done| |].
  - rewrite <-(assoc_L (++)), Hjoin; [done|].
    intros Hnil. rewrite Hnil in Hinvalid. by apply elem_of_nil in Hinvalid.
  - intros m Hm. destruct (Hoccurs m Hm) as (before & after & ->). by eexists _, _.
Qed.

End AddAction.

(** ** The dependency resolver *)

Section ResolverFacts.

Variable COMPONENTS : list Component.

Local Abbreviation find_component := (find_component COMPONENTS).
Local Abbreviation expand := (Resolver.expand COMPONENTS).
Local Abbreviation resolve := (Resolver.resolve COMPONENTS).

Implicit Types n d : str.
Implicit Types c : Component.
Implicit Types work : list str.
Implicit Types acc resolved : list Component.

Local Abbreviation closed := (Resolver.dependency_closed).

Local Abbreviation invariant := (Resolver.invariant COMPONENTS).

Lemma find_component_elem n c :
  find_component n = Some c → c ∈ COMPONENTS ∧ name c = n.
Proof.
  unfold find_component. intros [Hc Hname%bool_decide_eq_true]%find_some.
  by rewrite list_elem_of_In.
Qed.

Lemma elem_of_names c resolved : c ∈ resolved → name c ∈ name <$> resolved.
Proof. intros Hc. apply list_elem_of_fmap. by exists c. Qed.

(** Visiting a name that is included already. *)
Lemma invariant_skip n work acc :
  n ∈ name <$> acc → invariant (n :: work) acc → invariant work acc.
Proof.
  intros Hn [Hdistinct Hcatalog Hpending]. split; [done..|].
  intros c d Hc Hd.
  destruct (Hpending c d Hc Hd) as [?|[->|?]%elem_of_cons];
    [by left|by left|by right].
Qed.

(** Including a new component, its dependencies becoming pending. *)
Lemma invariant_include n c work acc :
  n ∉ name <$> acc → find_component n = Some c →
  invariant (n :: work) acc → invariant (dependencies c ++ work) (acc ++ [c]).
Proof.
  intros Hn [Hc Hname]%find_component_elem [Hdistinct Hcatalog Hpending].
  subst n. split.
  - rewrite fmap_app. cbn. apply NoDup_app. split_and!; [done| |apply NoDup_singleton].
    intros x Hx ->%list_elem_of_singleton. done.
  - intros c' [?| ->%list_elem_of_singleton]%elem_of_app; [by apply Hcatalog|done].
  - intros c' d [Hc'| ->%list_elem_of_singleton]%elem_of_app Hd.
    + rewrite fmap_app, !elem_of_app. cbn.
      destruct (Hpending c' d Hc' Hd) as [?|[->|?]%elem_of_cons].
      * by left; left.
      * left; right. apply list_elem_of_here.
      * by right; right.
    + right. apply elem_of_app. by left.
Qed.

(** A resolution that succeeds yields distinct catalog entries, closed
    under dependencies, among them what was included and what was pending. *)
Lemma expand_sound work acc resolved :
  expand work acc = inr resolved →
  invariant work acc →
  NoDup (name <$> resolved) ∧
  (∀ c, c ∈ resolved → c ∈ COMPONENTS) ∧
  closed resolved ∧
  (∀ n, n ∈ work → n ∈ name <$> resolved) ∧
  (∀ c, c ∈ acc → c ∈ resolved).
Proof.
  revert resolved. funelim (expand work acc); intros resolved Hrun Hinv.
  - injection Hrun as <-. destruct Hinv as [Hdistinct Hcatalog Hpending].
    split_and!; [done..| |by intros ? ?%elem_of_nil|done].
    intros c d Hc Hd.
    by destruct (Hpending c d Hc Hd) as [?|?%elem_of_nil].
  - match goal with
    | IH : ∀ resolved, _ → _ → _ |- _ =>
        destruct (IH resolved Hrun) as (? & ? & ? & Hwork & Hacc);
          [by eapply invariant_skip|]
    end.
    split_and!; [done..| |done].
    intros m [->|?]%elem_of_cons; [|by apply Hwork].
    match goal with
    | Hn : _ ∈ name <$> acc |- _ =>
        destruct (proj1 (list_elem_of_fmap _ _ _) Hn) as (c & Hname & Hc)
    end.
    rewrite Hname. by apply elem_of_names, Hacc.
  - match goal with
    | IH : ∀ resolved, _ → _ → _ |- _ =>
        destruct (IH resolved Hrun) as (? & ? & ? & Hwork & Hacc);
          [by eapply invariant_include|]
    end.
    split_and!; [done..| |].
    + intros m [->|?]%elem_of_cons.
      * destruct (find_component_elem _ _ Hfind) as [_ <-].
        apply elem_of_names, Hacc, elem_of_app. right. apply list_elem_of_here.
      * apply Hwork, elem_of_app. by right.
    + intros c' Hc'. apply Hacc, elem_of_app. by left.
  - done.
Qed.

(** With a closed catalog, names that are all in the catalog resolve. *)
Lemma expand_total work acc :
  Resolver.catalog_closed COMPONENTS →
  (∀ n, n ∈ work → is_Some (find_component n)) →
  ∃ resolved, expand work acc = inr resolved.
Proof.
  intros Hcatalog. funelim (expand work acc); intros Hwork.
  - by eexists.
  - match goal with IH : _ → _ → ∃ resolved, _ |- _ => apply IH; [done|] end.
    intros m Hm. apply Hwork. by apply list_elem_of_further.
  - match goal with IH : _ → _ → ∃ resolved, _ |- _ => apply IH; [done|] end.
    intros m [Hm|Hm]%elem_of_app.
    + destruct (find_component_elem _ _ Hfind) as [Hc _]. by eapply Hcatalog.
    + apply Hwork. by apply list_elem_of_further.
  - destruct (Hwork n) as [c Hc]; [apply list_elem_of_here|]. congruence.
Qed.

Lemma invariant_start work : invariant work [].
Proof.
  split; [apply NoDup_nil_2|by intros ? ?%elem_of_nil|by intros ? ? ?%elem_of_nil].
Qed.

(** C3: a resolution that succeeds lists no component twice and is closed
    under dependencies: every declared dependency of a component of the
    result is in the result, which also holds every requested component
    and only catalog entries.  When all requested names are in the catalog
    and the catalog keeps the invariant of the data model, the resolution
    succeeds. *)
Theorem resolve_distinct_closed requested :
  (∀ resolved, resolve requested = inr resolved →
     NoDup (name <$> resolved) ∧ NoDup resolved ∧
     closed resolved ∧
     (∀ n, n ∈ requested → n ∈ name <$> resolved) ∧
     (∀ c, c ∈ resolved → c ∈ COMPONENTS)) ∧
  ((∀ n, n ∈ requested → is_Some (find_component n)) →
   Resolver.catalog_closed COMPONENTS →
   ∃ resolved, resolve requested = inr resolved).
Proof.
  unfold resolve. split.
  - intros resolved Hrun.
    destruct (filter _ requested); [|done].
    destruct (expand_sound _ _ _ Hrun (invariant_start _))
      as (Hdistinct & ? & ? & ? & _).
    split_and!; try done. by eapply NoDup_fmap_1.
  - intros Hvalid Hcatalog.
    destruct (filter _ requested) as [|n invalid] eqn:Hfilter.
    + by apply expand_total.
    + assert (n ∈ filter (λ n, find_component n = None) requested) as Hn
        by (rewrite Hfilter; apply list_elem_of_here).
      apply list_elem_of_filter in Hn as [Hnone Hn].
      destruct (Hvalid n Hn) as [c Hc]. congruence.
Qed.

End ResolverFacts.

Lemma resolve_distinct_closed_witness :
  ∃ resolved, Resolver.resolve Sample.COMPONENTS [lit "button"] = inr resolved.
Proof.
  apply (proj2 (resolve_distinct_closed Sample.COMPONENTS [lit "button"])).
  - intros n ->%list_elem_of_singleton. vm_compute. by eexists.
  - intros c d Hc Hd. unfold Sample.COMPONENTS in Hc.
    repeat (apply elem_of_cons in Hc as [->|Hc]); [..|by apply elem_of_nil in Hc];
      cbn in Hd; apply list_elem_of_singleton in Hd as ->; vm_compute; by eexists.
Defined.

(** *** The action on the sample project *)

Section AddSamples.

Local Abbreviation add_selected :=
  (add_selected Sample.process_cwd true id Sample.COMPONENTS
                Sample.INVALID_COMPONENT_ERROR).

Lemma add_other_error_completes_witness :
  let err := {| instanceofError := true; message := lit "out of memory" |} in
  let w := Sample.world [] in
  ∃ w', add_selected (λ _, inl err) [lit "button"] Sample.config
          (Sample.options false) w = (Ret tt, w') ∧
        exit_code (add_selected (λ _, inl err) [lit "button"] Sample.config
                     (Sample.options false) w).1 = Some 0 ∧
        files w' = files w ∧ dirs w' = dirs w ∧
        trace w' = [SpinnerSucceed (lit "Done."); LoggerErrorValue err;
                    SpinnerStart (lit "Installing components...")] ++ trace w.
Proof.
  intros err w.
  apply (add_other_error_completes Sample.process_cwd true id Sample.COMPONENTS
           Sample.INVALID_COMPONENT_ERROR (λ _, inl err)).
  - done.
  - reflexivity.
  - intros [_ Hmessage]. vm_compute in Hmessage. discriminate.
Defined.

Lemma add_unknown_components_witness :
  let w := Sample.world [] in
  ∃ w',
    Resolver.resolve Sample.COMPONENTS [lit "button"; lit "buton"; lit "txt"]
      = inl (Resolver.UnknownComponentError [lit "buton"; lit "txt"]) ∧
    add_selected (Resolver.getAllComponentsToWrite Sample.COMPONENTS
                    Sample.INVALID_COMPONENT_ERROR)
                 [lit "button"; lit "buton"; lit "txt"] Sample.config
                 (Sample.options false) w
      = (Exit 1, w') ∧
    files w' = files w ∧ dirs w' = dirs w ∧
    trace w' = [LoggerError (lit "Invalid component(s): buton, txt");
                SpinnerStart (lit "Installing components...")] ++ trace w.
Proof.
  intros w.
  destruct (add_unknown_components Sample.process_cwd true id Sample.COMPONENTS
              Sample.INVALID_COMPONENT_ERROR
              [lit "button"; lit "buton"; lit "txt"] Sample.config
              (Sample.options false) w)
    as (invalid & w' & Hresolve & _ & Hrun & Hfiles & Hdirs & Htrace & _).
  - exists (lit "buton"). split; [by_evaluation|].
    intros (c & Hc & Hname). unfold Sample.COMPONENTS in Hc.
    repeat (apply elem_of_cons in Hc as [->|Hc]); [..|by apply elem_of_nil in Hc];
      vm_compute in Hname; discriminate.
  - assert (invalid = [lit "buton"; lit "txt"]) as ->.
    { vm_compute in Hresolve. injection Hresolve as <-. vm_compute. reflexivity. }
    exists w'. split_and!; [done|exact Hrun|exact Hfiles|exact Hdirs|].
    rewrite Htrace. vm_compute. reflexivity.
Defined.

Example sample_invalid_report :
  trace (add_selected (Resolver.getAllComponentsToWrite Sample.COMPONENTS
                         Sample.INVALID_COMPONENT_ERROR)
                      [lit "button"; lit "buton"; lit "txt"] Sample.config
                      (Sample.options false) (Sample.world [])).2
  = [LoggerError (lit "Invalid component(s): buton, txt");
     SpinnerStart (lit "Installing components...")].
Proof. vm_compute. reflexivity. Qed.

Example sample_resolution :
  Resolver.resolve Sample.COMPONENTS [lit "text"; lit "button"]
  = inr [Sample.text; Sample.button].
Proof. vm_compute. reflexivity. Qed.

End AddSamples.

(** ** More on the import rewriter *)

Section FixImportsMore.

Implicit Types x p u v : str.

(** X1: a text in which none of the six patterns occurs is copied as it is,
    whatever the aliases. *)
Theorem fixImports_pattern_free x cA lA :
  (∀ p, p ∈ rewriter_patterns → ¬ contains p x) →
  fixImports x cA lA = x.
Proof.
  intros Hx. unfold fixImports. cbn zeta.
  rewrite (replace_absent (lit "../Icons")) by (apply Hx; by_evaluation).
  rewrite (replace_absent (lit "./typography")) by (apply Hx; by_evaluation).
  rewrite (replace_absent (lit "./text")) by (apply Hx; by_evaluation).
  rewrite (replaceAll_absent (lit "../../components")) by (apply Hx; by_evaluation).
  rewrite (replaceAll_absent (lit "../../lib")) by (apply Hx; by_evaluation).
  by rewrite (replaceAll_absent (lit "@rnr")) by (apply Hx; by_evaluation).
Qed.

Lemma fixImports_pattern_free_witness :
  fixImports (lit "import * as React from 'react';") (lit "~/components") (lit "~/lib")
  = lit "import * as React from 'react';".
Proof.
  apply fixImports_pattern_free.
  intros p Hp. apply not_contains_includes.
  unfold rewriter_patterns in Hp.
  repeat (apply elem_of_cons in Hp as [->|Hp]); [..|by apply elem_of_nil in Hp];
    vm_compute; reflexivity.
Defined.

Lemma indexOf_minimal p u v :
  indexOf p (u ++ p ++ v) = Some (length u) →
  ∀ u' v', u ++ p ++ v = u' ++ p ++ v' → length u ≤ length u'.
Proof.
  intros Hindex u' v' Heq.
  destruct (indexOf_Some _ _ _ Hindex) as (_ & _ & _ & _ & Hmin).
  by eapply Hmin.
Qed.

Lemma replace_first_literal p r u v :
  DOLLAR ∉ r →
  indexOf p (u ++ p ++ v) = Some (length u) →
  replace p r (u ++ p ++ v) = u ++ r ++ v.
Proof.
  intros Hr Hindex.
  rewrite replace_first by by apply indexOf_minimal.
  by rewrite getSubstitution_literal.
Qed.

Lemma replaceAll_once_literal p r u v :
  p ≠ [] → DOLLAR ∉ r →
  indexOf p (u ++ p ++ v) = Some (length u) →
  ¬ contains p v →
  replaceAll p r (u ++ p ++ v) = u ++ r ++ v.
Proof.
  intros Hp Hr Hindex Hv. unfold replaceAll.
  rewrite replaceAll_scan_first by (done || by apply indexOf_minimal).
  by rewrite getSubstitution_literal, replaceAll_scan_absent.
Qed.

(** X2: a text with one import to rewrite: when a rule's pattern occurs first
    at the end of [u], no other pattern occurs in the text, the template of
    the rule has no [$], and the text with the template in place of the
    pattern has no pattern left, then this text is the result. *)
Theorem fixImports_single_import cA lA rule u v :
  rule ∈ rewriter_rules cA lA →
  DOLLAR ∉ template rule →
  indexOf (pattern rule) (u ++ pattern rule ++ v) = Some (length u) →
  (∀ p, p ∈ rewriter_patterns → p ≠ pattern rule →
        ¬ contains p (u ++ pattern rule ++ v)) →
  (∀ p, p ∈ rewriter_patterns → ¬ contains p (u ++ template rule ++ v)) →
  fixImports (u ++ pattern rule ++ v) cA lA = u ++ template rule ++ v.
Proof.
  intros Hrule Htemplate Hindex Hother Hafter.
  assert (Hv : ∀ p, p ∈ rewriter_patterns → ¬ contains p v).
  { intros p Hp Hin. apply (Hafter p Hp).
    rewrite (assoc_L (++)). by apply contains_app_r. }
  unfold rewriter_rules in Hrule.
  repeat (apply elem_of_cons in Hrule as [->|Hrule]);
    [..|by apply elem_of_nil in Hrule];
    cbn [pattern template] in *; unfold fixImports; cbn zeta.
  - rewrite (replace_first_literal (lit "../Icons")) by done.
    rewrite (replace_absent (lit "./typography")) by (apply Hafter; by_evaluation).
    rewrite (replace_absent (lit "./text")) by (apply Hafter; by_evaluation).
    rewrite (replaceAll_absent (lit "../../components")) by (apply Hafter; by_evaluation).
    rewrite (replaceAll_absent (lit "../../lib")) by (apply Hafter; by_evaluation).
    by rewrite (replaceAll_absent (lit "@rnr")) by (apply Hafter; by_evaluation).
  - rewrite (replace_absent (lit "../Icons")) by (apply Hother; by_evaluation).
    rewrite (replace_first_literal (lit "./typography")) by done.
    rewrite (replace_absent (lit "./text")) by (apply Hafter; by_evaluation).
    rewrite (replaceAll_absent (lit "../../components")) by (apply Hafter; by_evaluation).
    rewrite (replaceAll_absent (lit "../../lib")) by (apply Hafter; by_evaluation).
    by rewrite (replaceAll_absent (lit "@rnr")) by (apply Hafter; by_evaluation).
  - rewrite (replace_absent (lit "../Icons")) by (apply Hother; by_evaluation).
    rewrite (replace_absent (lit "./typography")) by (apply Hother; by_evaluation).
    rewrite (replace_first_literal (lit "./text")) by done.
    rewrite (replaceAll_absent (lit "../../components")) by (apply Hafter; by_evaluation).
    rewrite (replaceAll_absent (lit "../../lib")) by (apply Hafter; by_evaluation).
    by rewrite (replaceAll_absent (lit "@rnr")) by (apply Hafter; by_evaluation).
  - rewrite (replace_absent (lit "../Icons")) by (apply Hother; by_evaluation).
    rewrite (replace_absent (lit "./typography")) by (apply Hother; by_evaluation).
    rewrite (replace_absent (lit "./text")) by (apply Hother; by_evaluation).
    rewrite (replaceAll_once_literal (lit "../../components"))
      by (done || apply Hv; by_evaluation).
    rewrite (replaceAll_absent (lit "../../lib")) by (apply Hafter; by_evaluation).
    by rewrite (replaceAll_absent (lit "@rnr")) by (apply Hafter; by_evaluation).
  - rewrite (replace_absent (lit "../Icons")) by (apply Hother; by_evaluation).
    rewrite (replace_absent (lit "./typography")) by (apply Hother; by_evaluation).
    rewrite (replace_absent (lit "./text")) by (apply Hother; by_evaluation).
    rewrite (replaceAll_absent (lit "../../components")) by (apply Hother; by_evaluation).
    rewrite (replaceAll_once_literal (lit "../../lib"))
      by (done || apply Hv; by_evaluation).
    by rewrite (replaceAll_absent (lit "@rnr")) by (apply Hafter; by_evaluation).
  - rewrite (replace_absent (lit "../Icons")) by (apply Hother; by_evaluation).
    rewrite (replace_absent (lit "./typography")) by (apply Hother; by_evaluation).
    rewrite (replace_absent (lit "./text")) by (apply Hother; by_evaluation).
    rewrite (replaceAll_absent (lit "../../components")) by (apply Hother; by_evaluation).
    rewrite (replaceAll_absent (lit "../../lib")) by (apply Hother; by_evaluation).
    by rewrite (replaceAll_once_literal (lit "@rnr"))
      by (done || apply Hv; by_evaluation).
Qed.

Lemma fixImports_single_import_witness :
  fixImports (lit "import { cn } from '" ++ lit "../../lib" ++ lit "/utils';")
             (lit "~/components") (lit "~/lib")
  = lit "import { cn } from '" ++ lit "~/lib" ++ lit "/utils';".
Proof.
  apply (fixImports_single_import (lit "~/components") (lit "~/lib")
           {| replaced := EveryOccurrence; pattern := lit "../../lib";
              template := lit "~/lib" |}).
  - unfold rewriter_rules. do 4 apply list_elem_of_further. apply list_elem_of_here.
  - by_evaluation.
  - vm_compute. reflexivity.
  - intros p Hp Hne. apply not_contains_includes. unfold rewriter_patterns in Hp.
    repeat (apply elem_of_cons in Hp as [->|Hp]); [..|by apply elem_of_nil in Hp];
      try (vm_compute; reflexivity). by destruct Hne.
  - intros p Hp. apply not_contains_includes. unfold rewriter_patterns in Hp.
    repeat (apply elem_of_cons in Hp as [->|Hp]); [..|by apply elem_of_nil in Hp];
      vm_compute; reflexivity.
Defined.

End FixImportsMore.

(** ** More on the file installer *)

Section InstallerMore.

Variable process_cwd : str.
Variable handleError_exits : bool.
Variable chalk_green : str → str.

Local Abbreviation fs_key := (fs_key process_cwd).
Local Abbreviation exists_in := (exists_in process_cwd).
Local Abbreviation path_segments := (path_segments process_cwd).
Local Abbreviation source := (source process_cwd).
Local Abbreviation ancestors := (ancestors process_cwd).
Local Abbreviation read_error := (read_error process_cwd).
Local Abbreviation target_dir_reachable := (target_dir_reachable process_cwd).
Local Abbreviation ensure_target_dir := (ensure_target_dir process_cwd).
Local Abbreviation skipped_message := (skipped_message chalk_green).
Local Abbreviation install_file := (install_file process_cwd handleError_exits).
Local Abbreviation writeFiles_entry :=
  (writeFiles_entry process_cwd handleError_exits chalk_green).
Local Abbreviation writeFiles := (writeFiles process_cwd handleError_exits chalk_green).
Local Abbreviation entry_run :=
  (writeFiles_entry_run process_cwd handleError_exits chalk_green).

Implicit Types w : World.
Implicit Types e : PathEntry.
Implicit Types k p : str.

Lemma writeFiles_cons comp e rest config options w :
  writeFiles comp (e :: rest) config options w
  = match writeFiles_entry comp e config options w with
    | (Ret _, w2) => writeFiles comp rest config options w2
    | (Exit code, w2) => (Exit code, w2)
    | (Throw err, w2) => (Throw err, w2)
    end.
Proof. reflexivity. Qed.

(** A property that every round keeps is kept by the loop. *)
Lemma writeFiles_stepwise (R : World → World → Prop) comp entries config options :
  (∀ w, R w w) →
  (∀ w1 w2 w3, R w1 w2 → R w2 w3 → R w1 w3) →
  (∀ e w, e ∈ entries → R w (writeFiles_entry comp e config options w).2) →
  ∀ w, R w (writeFiles comp entries config options w).2.
Proof.
  intros Hrefl Htrans. induction entries as [|e entries IH]; intros Hstep w.
  - apply Hrefl.
  - rewrite writeFiles_cons.
    pose proof (Hstep e w (list_elem_of_here _ _)) as He.
    destruct (writeFiles_entry comp e config options w) as [[[]|code|err] w2];
      cbn [snd] in *; [|done..].
    eapply Htrans; [exact He|]. apply IH.
    intros e' w' He'. apply Hstep. by apply list_elem_of_further.
Qed.

(** The files and directories left by the search for the target
    directory. *)
Lemma ensure_target_dir_fields targetDir w :
  files (ensure_target_dir targetDir w).2 = files w ∧
  dirs w ⊆ dirs (ensure_target_dir targetDir w).2.
Proof.
  destruct (ensure_target_dir_run process_cwd targetDir w)
    as (w1 & -> & Hfiles & Hdirs & _).
  done.
Qed.

Lemma exists_in_false_lookup w p :
  exists_in w p = false → files w !! fs_key p = None.
Proof.
  unfold exists_in. intros [Hfile _]%orb_false_iff.
  apply bool_decide_eq_false in Hfile. by apply eq_None_not_Some.
Qed.

(** X3: [writeFiles] deletes nothing: a file that is there stays there, and so
    does a directory. *)
Theorem writeFiles_deletes_nothing comp entries config options w :
  (∀ k, is_Some (files w !! k) →
        is_Some (files (writeFiles comp entries config options w).2 !! k)) ∧
  dirs w ⊆ dirs (writeFiles comp entries config options w).2.
Proof.
  apply (writeFiles_stepwise
           (λ w w', (∀ k, is_Some (files w !! k) → is_Some (files w' !! k))
                    ∧ dirs w ⊆ dirs w')).
  - done.
  - intros w1 w2 w3 [Hf12 Hd12] [Hf23 Hd23]. split; [by auto|].
    by etrans.
  - intros e w0 _. rewrite entry_run. cbn zeta.
    destruct (ensure_target_dir_fields (target_dir config e) w0) as [_ Hdirs].
    destruct (_ && negb _); [done|].
    destruct (files w0 !! fs_key (source e)); [|done]. cbn [snd files dirs].
    split; [|done]. intros k Hk. apply lookup_insert_is_Some'. by right.
Qed.

(** X4: without [--overwrite] and with an operator who never consents, a file
    that is there keeps its content. *)
Theorem writeFiles_without_consent comp entries config options w k content :
  overwrite options = false →
  Forall (λ answer, answer = false) (answers w) →
  files w !! k = Some content →
  files (writeFiles comp entries config options w).2 !! k = Some content.
Proof.
  intros Hflag Hanswers Hk.
  refine (proj2 (writeFiles_stepwise
    (λ w w', Forall (λ answer, answer = false) (answers w) →
             Forall (λ answer, answer = false) (answers w')
             ∧ ∀ k content, files w !! k = Some content →
                            files w' !! k = Some content)
    comp entries config options _ _ _ w Hanswers) k content Hk).
  - done.
  - intros w1 w2 w3 H12 H23 H1.
    destruct (H12 H1) as [H2 Hf12]. destruct (H23 H2) as [H3 Hf23].
    split; [done|]. by auto.
  - intros e w0 _ Hno. rewrite entry_run. cbn zeta. rewrite Hflag. cbn [negb andb].
    destruct (ensure_target_dir_fields (target_dir config e) w0) as [Hfiles _].
    assert (default false (head (answers w0)) = false) as ->.
    { destruct Hno as [|? ? ->]; done. }
    assert (Forall (λ answer, answer = false) (tail (answers w0))) as Htail.
    { destruct Hno; [done|]. done. }
    destruct (exists_in _ (destination config e)) eqn:Hfound; cbn [negb andb].
    + done.
    + apply exists_in_false_lookup in Hfound. rewrite Hfiles in Hfound.
      destruct (files w0 !! fs_key (source e)); [|done]. cbn [snd files answers].
      split; [done|]. intros k' content' Hk'.
      rewrite lookup_insert_ne; [done|]. intros <-. congruence.
Qed.

(** X5: with [--overwrite] nothing is asked over the whole list, and no answer
    of the operator is used up. *)
Theorem writeFiles_forced_never_asks comp entries config options w :
  overwrite options = true →
  answers (writeFiles comp entries config options w).2 = answers w ∧
  ∃ events,
    trace (writeFiles comp entries config options w).2 = events ++ trace w ∧
    prompts_shown events = 0.
Proof.
  intros Hflag.
  apply (writeFiles_stepwise
           (λ w w', answers w' = answers w
                    ∧ ∃ events, trace w' = events ++ trace w
                                ∧ prompts_shown events = 0)).
  - intros w0. split; [done|]. by exists [].
  - intros w1 w2 w3 [Ha12 (ev12 & Ht12 & Hp12)] [Ha23 (ev23 & Ht23 & Hp23)].
    split; [congruence|]. exists (ev23 ++ ev12).
    split; [by rewrite Ht23, Ht12, (assoc_L (++))|].
    clear -Hp12 Hp23. induction ev23 as [|ev ev23 IH]; [done|].
    cbn in *. destruct (is_prompt ev); [done|]. by apply IH.
  - intros e w0 _. rewrite entry_run. cbn zeta. rewrite Hflag. cbn [negb andb].
    destruct (files w0 !! fs_key (source e)); cbn [snd answers trace];
      (split; [done|]); [eexists [_]|eexists [_; _]];
      (split; [reflexivity|reflexivity]).
Qed.

Lemma prompts_shown_app (events1 events2 : list Event) :
  prompts_shown (events1 ++ events2) = prompts_shown events1 + prompts_shown events2.
Proof.
  induction events1 as [|ev events1 IH]; [done|]. cbn. rewrite IH. lia.
Qed.

Lemma writeFiles_entry_prompts comp e config options w :
  ∃ events,
    trace (writeFiles_entry comp e config options w).2 = events ++ trace w ∧
    prompts_shown events ≤ 1 ∧
    answers (writeFiles_entry comp e config options w).2
    = drop (prompts_shown events) (answers w).
Proof.
  rewrite entry_run. cbn zeta.
  destruct (negb (overwrite options) && exists_in _ (destination config e));
    cbn [andb].
  - destruct (negb _).
    + eexists [_; _; _]. cbn [snd trace answers]. split; [reflexivity|].
      split; [cbn; lia|]. cbn. by destruct (answers w).
    + destruct (files w !! fs_key (source e)).
      * eexists [_; _; _]. cbn [snd trace answers]. split; [reflexivity|].
        split; [cbn; lia|]. cbn. by destruct (answers w).
      * eexists [_; _; _; _]. cbn [snd trace answers]. split; [reflexivity|].
        split; [cbn; lia|]. cbn. by destruct (answers w).
  - destruct (files w !! fs_key (source e)).
    + eexists [_]. cbn [snd trace answers]. split; [reflexivity|].
      split; [cbn; lia|]. done.
    + eexists [_; _]. cbn [snd trace answers]. split; [reflexivity|].
      split; [cbn; lia|]. done.
Qed.

(** X6: the operator is asked at most once for each entry, and every question
    uses up exactly one of the operator's answers. *)
Theorem writeFiles_one_answer_per_prompt comp entries config options w :
  ∃ events,
    trace (writeFiles comp entries config options w).2 = events ++ trace w ∧
    prompts_shown events ≤ length entries ∧
    answers (writeFiles comp entries config options w).2
    = drop (prompts_shown events) (answers w).
Proof.
  revert w. induction entries as [|e entries IH]; intros w.
  - exists []. by split_and!.
  - rewrite writeFiles_cons.
    destruct (writeFiles_entry_prompts comp e config options w)
      as (events1 & Htrace1 & Hcount1 & Hanswers1).
    destruct (writeFiles_entry comp e config options w) as [[[]|code|err] w2];
      cbn [snd] in *.
    + destruct (IH w2) as (events2 & Htrace2 & Hcount2 & Hanswers2).
      exists (events2 ++ events1). rewrite prompts_shown_app. split_and!.
      * by rewrite Htrace2, Htrace1, (assoc_L (++)).
      * cbn. lia.
      * rewrite Hanswers2, Hanswers1, drop_drop. f_equal. lia.
    + exists events1. split_and!; [done|cbn; lia|done].
    + exists events1. split_and!; [done|cbn; lia|done].
Qed.

Lemma exists_in_mono w w' p :
  (∀ k, is_Some (files w !! k) → is_Some (files w' !! k)) →
  dirs w ⊆ dirs w' →
  exists_in w p = true → exists_in w' p = true.
Proof.
  intros Hfiles Hdirs. unfold exists_in.
  intros [Hfile%bool_decide_eq_true|Hdir%bool_decide_eq_true]%orb_prop;
    apply orb_true_iff; [left|right]; apply bool_decide_eq_true; auto.
Qed.

(** [fs.mkdir] with [recursive] makes the directory itself. *)
Lemma fs_key_in_ancestors p :
  NodePath.isAbsolute p = true → path_segments p ≠ [] →
  fs_key p ∈ ancestors p.
Proof.
  intros Habs Hsegs. unfold ancestors. fold (path_segments p).
  apply list_elem_of_fmap. exists (length (path_segments p)). split.
  - rewrite firstn_all, path_segments_absolute by done.
    by apply fs_key_absolute.
  - apply elem_of_seq. destruct (path_segments p); [done|]. cbn. lia.
Qed.

(** X7: when lines 182 to 184 go through (something is at the target
    directory, or [fs.mkdir] can make it), the target directory is there
    after the round, whether a file has been written, the operator has
    refused, or the source could not be read. *)
Theorem writeFiles_entry_target_dir_exists comp e config options w :
  NodePath.isAbsolute (resolvedPaths_components config) = true →
  path_segments (target_dir config e) ≠ [] →
  target_dir_reachable w (target_dir config e) →
  exists_in (writeFiles_entry comp e config options w).2 (target_dir config e)
  = true.
Proof.
  intros Habs Hsegs _.
  assert (NodePath.isAbsolute (target_dir config e) = true) as Htarget
    by by apply join_absolute.
  assert (exists_in (ensure_target_dir (target_dir config e) w).2
                    (target_dir config e) = true) as Hmade.
  { unfold ensure_target_dir, bind, existsSync, mkdir_recursive, ret.
    destruct (exists_in w (target_dir config e)) eqn:Hfound; cbn; [done|].
    unfold exists_in. cbn. apply orb_true_iff. right.
    apply bool_decide_eq_true, elem_of_union. right.
    apply elem_of_list_to_set. by apply fs_key_in_ancestors. }
  revert Hmade. apply exists_in_mono.
  - rewrite entry_run. cbn zeta.
    destruct (ensure_target_dir_fields (target_dir config e) w) as [Hfiles _].
    rewrite Hfiles.
    destruct (_ && negb _); [done|].
    destruct (files w !! fs_key (source e)); [|done]. cbn [snd files].
    intros k Hk. apply lookup_insert_is_Some'. by right.
  - rewrite entry_run. cbn zeta. destruct (_ && negb _); [done|].
    by destruct (files w !! fs_key (source e)).
Qed.

Lemma Forall_removelast {A} (P : A → Prop) (l : list A) :
  Forall P l → Forall P (removelast l).
Proof.
  induction 1 as [|x l Hx Hl IH]; [done|].
  destruct l; [done|]. by constructor.
Qed.





(** What the loop changes is the destination of one of its entries. *)
Lemma writeFiles_changes comp entries config options w k :
  files (writeFiles comp entries config options w).2 !! k ≠ files w !! k →
  ∃ e, e ∈ entries ∧ k = fs_key (destination config e).
Proof.
  revert w. induction entries as [|e entries IH]; intros w; [done|].
  rewrite writeFiles_cons.
  pose proof (writeFiles_entry_frame process_cwd handleError_exits chalk_green
                comp e config options w k) as Hframe.
  destruct (writeFiles_entry comp e config options w) as [[[]|code|err] w2];
    cbn [snd] in *.
  - intros Hk.
    destruct (decide (files w2 !! k = files w !! k)) as [Heq|Hne].
    + rewrite <-Heq in Hk. destruct (IH _ Hk) as (e' & ? & ?).
      exists e'. split; [by apply list_elem_of_further|done].
    + exists e. split; [apply list_elem_of_here|by apply Hframe].
  - intros Hk. exists e. split; [apply list_elem_of_here|by apply Hframe].
  - intros Hk. exists e. split; [apply list_elem_of_here|by apply Hframe].
Qed.


End InstallerMore.

(** ** More on the [add] action *)

Section AddMore.

Variable process_cwd : str.
Variable handleError_exits : bool.
Variable chalk_green : str → str.
Variable COMPONENTS : list Component.
Variable INVALID_COMPONENT_ERROR : str.
Variable getAllComponentsToWrite : list str → Thrown + list Component.

Local Abbreviation fs_key := (fs_key process_cwd).
Local Abbreviation writeFiles_entry :=
  (writeFiles_entry process_cwd handleError_exits chalk_green).
Local Abbreviation writeFiles := (writeFiles process_cwd handleError_exits chalk_green).
Local Abbreviation install_components :=
  (install_components process_cwd handleError_exits chalk_green).
Local Abbreviation add_selected :=
  (add_selected process_cwd handleError_exits chalk_green COMPONENTS
                INVALID_COMPONENT_ERROR getAllComponentsToWrite).

Implicit Types w : World.
Implicit Types comp : Component.
Implicit Types k : str.

(** The installer, its calls of [fs.mkdir] being carried out, returns or
    exits with code 1; it lets no exception out. *)
Lemma writeFiles_outcome comp entries config options w :
  (writeFiles comp entries config options w).1 = Ret tt ∨
  (writeFiles comp entries config options w).1 = Exit 1.
Proof.
  revert w. induction entries as [|e entries IH]; intros w; [by left|].
  rewrite writeFiles_cons.
  pose proof (writeFiles_entry_run process_cwd handleError_exits chalk_green
                comp e config options w) as Hrun.
  cbn zeta in Hrun. rewrite Hrun.
  destruct (_ && negb _); [apply IH|].
  destruct (files w !! _); [apply IH|].
  destruct handleError_exits; [by right|apply IH].
Qed.

Lemma writeFiles_console_logs comp entries config options w :
  console_logs (trace (writeFiles comp entries config options w).2)
  = console_logs (trace w).
Proof.
  apply (writeFiles_stepwise process_cwd handleError_exits chalk_green
           (λ w w', console_logs (trace w') = console_logs (trace w))).
  - done.
  - intros w1 w2 w3 H12 H23. congruence.
  - intros e w0 _.
    rewrite (writeFiles_entry_run process_cwd handleError_exits chalk_green).
    cbn zeta.
    destruct (negb (overwrite options) && _); cbn [andb];
      [destruct (negb _)|]; try destruct (files w0 !! _); done.
Qed.

Lemma install_components_cons comp rest config options w :
  install_components (comp :: rest) config options w
  = match writeFiles comp (select_paths comp config) config options
            {| files := files w; dirs := dirs w; answers := answers w;
               trace := SpinnerText (lit "Installing " ++ name comp ++ lit "...")
                        :: trace w |} with
    | (Ret _, w2) =>
        install_components rest config options
          {| files := files w2; dirs := dirs w2; answers := answers w2;
             trace := ConsoleLog (lit "NPM PACKAGES") (select_npmPackages comp config)
                      :: trace w2 |}
    | (Exit code, w2) => (Exit code, w2)
    | (Throw err, w2) => (Throw err, w2)
    end.
Proof.
  simpl (install_components (_ :: _) _ _). unfold bind, emit.
  by destruct (writeFiles _ _ _ _ _) as [[[]|?|?] ?].
Qed.

Lemma install_components_outcome comps config options w :
  (install_components comps config options w).1 = Ret tt ∨
  (install_components comps config options w).1 = Exit 1.
Proof.
  revert w. induction comps as [|comp comps IH]; intros w; [by left|].
  rewrite install_components_cons.
  match goal with
  | |- context [writeFiles ?c ?es ?cf ?op ?w0] =>
      destruct (writeFiles_outcome c es cf op w0) as [Hout|Hout];
        destruct (writeFiles c es cf op w0) as [o w2]
  end; cbn [fst] in Hout; subst o; [apply IH|by right].
Qed.

(** What the loop over the components changes is a destination of an entry
    of one of them, among the entries of the configured platform. *)
Lemma install_components_changes comps config options w k :
  files (install_components comps config options w).2 !! k ≠ files w !! k →
  ∃ comp e, comp ∈ comps ∧ e ∈ select_paths comp config ∧
            k = fs_key (destination config e).
Proof.
  revert w. induction comps as [|comp comps IH]; intros w; [done|].
  rewrite install_components_cons.
  match goal with
  | |- context [writeFiles ?c ?es ?cf ?op ?w0] =>
      pose proof (writeFiles_changes process_cwd handleError_exits chalk_green
                    c es cf op w0 k) as Hhere;
        destruct (writeFiles c es cf op w0) as [[[]|code|err] w2]
  end; cbn [snd files] in *.
  - intros Hk.
    destruct (decide (files w2 !! k = files w !! k)) as [Heq|Hne].
    + destruct (IH {| files := files w2; dirs := dirs w2; answers := answers w2;
                      trace := ConsoleLog (lit "NPM PACKAGES")
                                 (select_npmPackages comp config) :: trace w2 |})
        as (comp' & e & ? & ? & ?); [cbn [files]; congruence|].
      exists comp', e. split_and!; [by apply list_elem_of_further|done..].
    + destruct (Hhere Hne) as (e & ? & ?).
      exists comp, e. split_and!; [apply list_elem_of_here|done..].
  - intros Hk. destruct (Hhere Hk) as (e & ? & ?).
    exists comp, e. split_and!; [apply list_elem_of_here|done..].
  - intros Hk. destruct (Hhere Hk) as (e & ? & ?).
    exists comp, e. split_and!; [apply list_elem_of_here|done..].
Qed.

(** X10: the action changes a file only when the resolution has succeeded, and
    then only the destination of a file entry of a resolved component, the
    entry being one of the configured platform when the component has
    entries by platform. *)
Theorem add_selected_writes_resolved_entries selected config options w k :
  files (add_selected selected config options w).2 !! k ≠ files w !! k →
  ∃ resolved comp e,
    getAllComponentsToWrite selected = inr resolved ∧
    comp ∈ resolved ∧
    e ∈ match paths comp with
        | PathsArray entries => entries
        | PathsByPlatform universal_entries native_only_entries =>
            match platforms config with
            | universal => universal_entries
            | native_only => native_only_entries
            end
        end ∧
    k = fs_key (destination config e).
Proof.
  unfold add_selected, try_catch, bind, emit, ret, process_exit.
  destruct selected as [|n selected]; [done|].
  destruct (getAllComponentsToWrite (n :: selected)) as [err|resolved].
  - destruct (instanceofError err && bool_decide _); done.
  - cbn [files dirs answers trace].
    match goal with
    | |- context [install_components ?cs ?cf ?op ?w0] =>
        pose proof (install_components_changes cs cf op w0 k) as Hchanges;
          destruct (install_components_outcome cs cf op w0) as [Hout|Hout];
          destruct (install_components cs cf op w0) as [o w2]
    end; cbn [fst snd files] in *; subst o; cbn [snd files];
      intros Hk; destruct (Hchanges Hk) as (comp & e & ? & ? & ?);
      by exists resolved, comp, e.
Qed.

(** X11: the action never ends with an exception: it returns, or it exits with
    code 0, which it does exactly when nothing is selected, or with code
    1. *)
Theorem add_selected_outcome selected config options w :
  match (add_selected selected config options w).1 with
  | Ret _ => selected ≠ []
  | Exit code => (code = 0 ∧ selected = []) ∨ (code = 1 ∧ selected ≠ [])
  | Throw _ => False
  end.
Proof.
  unfold add_selected, try_catch, bind, emit, ret, process_exit.
  destruct selected as [|n selected]; [by left|].
  destruct (getAllComponentsToWrite (n :: selected)) as [err|resolved].
  - destruct (instanceofError err && bool_decide _); cbn; [by right|done].
  - cbn [files dirs answers trace].
    match goal with
    | |- context [install_components ?cs ?cf ?op ?w0] =>
        destruct (install_components_outcome cs cf op w0) as [Hout|Hout];
          destruct (install_components cs cf op w0) as [o w2]
    end; cbn [fst] in Hout; subst o; cbn; [done|by right].
Qed.

(** The lines that the loop has printed: those of the components it has
    dealt with, in their order. *)
Lemma install_components_console_logs comps config options w :
  ∃ handled,
    handled `prefix_of` comps ∧
    console_logs (trace (install_components comps config options w).2)
    = reverse ((λ comp, (lit "NPM PACKAGES",
                         match platforms config with
                         | universal => fst (npmPackages comp)
                         | native_only => snd (npmPackages comp)
                         end)) <$> handled)
      ++ console_logs (trace w) ∧
    ((install_components comps config options w).1 = Ret tt → handled = comps).
Proof.
  revert w. induction comps as [|comp comps IH]; intros w.
  - exists []. by split_and!.
  - rewrite install_components_cons.
    match goal with
    | |- context [writeFiles ?c ?es ?cf ?op ?w0] =>
        pose proof (writeFiles_console_logs c es cf op w0) as Hlogs;
          destruct (writeFiles c es cf op w0) as [[[]|code|err] w2]
    end; cbn [snd trace console_logs] in Hlogs.
    + destruct (IH {| files := files w2; dirs := dirs w2; answers := answers w2;
                      trace := ConsoleLog (lit "NPM PACKAGES")
                                 (select_npmPackages comp config) :: trace w2 |})
        as (handled & Hprefix & Hconsole & Hall).
      exists (comp :: handled). split_and!.
      * by apply prefix_cons.
      * rewrite Hconsole. cbn [trace console_logs]. rewrite Hlogs.
        rewrite fmap_cons, reverse_cons, <-(assoc_L (++)). done.
      * intros Hret. by rewrite Hall.
    + exists []. split_and!; [apply prefix_nil|done|done].
    + exists []. split_and!; [apply prefix_nil|done|done].
Qed.

(** The loop over a list in two parts. *)
Lemma install_components_app comps1 comps2 config options w :
  install_components (comps1 ++ comps2) config options w
  = match install_components comps1 config options w with
    | (Ret _, w1) => install_components comps2 config options w1
    | (Exit code, w1) => (Exit code, w1)
    | (Throw err, w1) => (Throw err, w1)
    end.
Proof.
  revert w. induction comps1 as [|comp comps1 IH]; intros w; [done|].
  rewrite <-app_comm_cons, !install_components_cons.
  match goal with
  | |- context [writeFiles ?c ?es ?cf ?op ?w0] =>
      destruct (writeFiles c es cf op w0) as [[[]|code|err] w2]
  end; [apply IH|done..].
Qed.

(** X12: the packages of a component are printed once [writeFiles] has
    returned for it, on top of what [writeFiles] has shown and in the state
    it has left, and before the next component is begun.  Up to then the
    packages of the components before it have been printed, in the order
    of the components, and no others.  When [writeFiles] does not return
    for the component, the loop ends with it and the packages of the
    component are not printed. *)
Theorem install_components_logs_packages before comp rest config options w wb :
  let packages comp := match platforms config with
                       | universal => fst (npmPackages comp)
                       | native_only => snd (npmPackages comp)
                       end in
  let begun :=
    {| files := files wb; dirs := dirs wb; answers := answers wb;
       trace := SpinnerText (lit "Installing " ++ name comp ++ lit "...")
                :: trace wb |} in
  let written := writeFiles comp (select_paths comp config) config options begun in
  install_components before config options w = (Ret tt, wb) →
  console_logs (trace written.2)
  = reverse ((λ comp, (lit "NPM PACKAGES", packages comp)) <$> before)
    ++ console_logs (trace w) ∧
  install_components (before ++ comp :: rest) config options w
  = match written.1 with
    | Ret _ =>
        install_components rest config options
          {| files := files written.2; dirs := dirs written.2;
             answers := answers written.2;
             trace := ConsoleLog (lit "NPM PACKAGES") (packages comp)
                      :: trace written.2 |}
    | _ => written
    end.
Proof.
  cbn zeta. intros Hbefore. split.
  - rewrite writeFiles_console_logs. cbn [trace console_logs].
    destruct (install_components_console_logs before config options w)
      as (handled & _ & Hlogs & Hall).
    rewrite Hbefore in Hlogs, Hall. cbn [fst snd] in Hlogs, Hall.
    by rewrite Hlogs, Hall.
  - rewrite install_components_app, Hbefore, install_components_cons.
    match goal with
    | |- context [writeFiles ?c ?es ?cf ?op ?w0] =>
        destruct (writeFiles c es cf op w0) as [[[]|code|err] w2]
    end; done.
Qed.

End AddMore.

(** ** The configuration and the start of the action *)

Section CommandFacts.

Variable process_cwd : str.
Variable handleError_exits : bool.
Variable chalk_green chalk_cyan : str → str.
Variable COMPONENTS : list Component.
Variable INVALID_COMPONENT_ERROR : str.
Variable getAllComponentsToWrite : list str → Thrown + list Component.
Variable RawConfig : Type.
Variable rawConfigSchema_parse : ConfigAnswers → Thrown + RawConfig.
Variable getConfig : str → IO (option Config).
Variable resolveConfigPaths : str → RawConfig → IO Config.
Variable JSON_stringify : RawConfig → str.
Variable prompts_config : IO ConfigAnswers.
Variable prompts_multiselect : list str → IO (option (list str)).

Local Abbreviation fs_key := (fs_key process_cwd).
Local Abbreviation exists_in := (exists_in process_cwd).
Local Abbreviation write_possible := (write_possible process_cwd).
Local Abbreviation add_selected :=
  (add_selected process_cwd handleError_exits chalk_green COMPONENTS
                INVALID_COMPONENT_ERROR getAllComponentsToWrite).
Local Abbreviation promptForConfig :=
  (promptForConfig process_cwd chalk_cyan RawConfig rawConfigSchema_parse
                   resolveConfigPaths JSON_stringify prompts_config).
Local Abbreviation add_action :=
  (add_action process_cwd handleError_exits chalk_green chalk_cyan COMPONENTS
              INVALID_COMPONENT_ERROR getAllComponentsToWrite RawConfig
              rawConfigSchema_parse getConfig resolveConfigPaths JSON_stringify
              prompts_config prompts_multiselect).

Implicit Types w : World.

(** X13: [components.json] is written if and only if the answers are valid and
    the operator consents, at [path.resolve(cwd, 'components.json')] and
    with [JSON.stringify(config, null, 2)] as its content, the write being
    one that can be carried out; invalid answers raise the exception of the
    schema before anything is asked or written; a refusal writes nothing,
    and the configuration is resolved all the same. *)
Theorem promptForConfig_writes_with_consent cwd w answered w1 :
  prompts_config w = (Ret answered, w1) →
  (default false (head (answers w1)) = true →
   write_possible w1 (NodePath.resolve process_cwd [cwd; lit "components.json"])) →
  match rawConfigSchema_parse answered with
  | inl err => promptForConfig cwd w = (Throw err, w1)
  | inr config =>
      ∃ w2,
        promptForConfig cwd w = resolveConfigPaths cwd config w2 ∧
        dirs w2 = dirs w1 ∧
        answers w2 = tail (answers w1) ∧
        files w2
        = if default false (head (answers w1))
          then <[fs_key (NodePath.resolve process_cwd [cwd; lit "components.json"])
                 := JSON_stringify config]> (files w1)
          else files w1
  end.
Proof.
  intros Hasked _.
  destruct (rawConfigSchema_parse answered) as [err|config] eqn:Hparse;
    unfold promptForConfig, bind, ret, throw, prompts_confirm, emit, writeFile;
    rewrite Hasked, Hparse; [done|].
  cbn [files dirs answers trace].
  destruct (default false (head (answers w1))); eexists; by split_and!.
Qed.

Lemma add_selected_never_throws selected config options w err :
  (add_selected selected config options w).1 ≠ Throw err.
Proof.
  unfold add_selected, try_catch, bind, emit, ret, process_exit.
  destruct selected as [|n selected]; [done|].
  destruct (getAllComponentsToWrite (n :: selected)) as [thrown|resolved].
  - by destruct (instanceofError thrown && bool_decide _).
  - cbn [files dirs answers trace].
    match goal with
    | |- context [install_components ?a ?b ?c ?cs ?cf ?op ?w0] =>
        destruct (install_components_outcome a b c cs cf op w0) as [Hout|Hout];
          destruct (install_components a b c cs cf op w0) as [o w2]
    end; cbn [fst] in Hout; by subst o.
Qed.

Lemma try_catch_no_throw {A} (body : IO A) (handler : Thrown → IO A) w :
  (∀ err, (body w).1 ≠ Throw err) → try_catch body handler w = body w.
Proof.
  intros Hbody. unfold try_catch.
  destruct (body w) as [[a|code|err] w'] eqn:Hrun; [done..|].
  by destruct (Hbody err).
Qed.

(** X14: a working directory that does not exist: the action reports it and
    exits with code 1, before the configuration is looked for, anything is
    asked or anything is written. *)
Theorem add_action_missing_cwd options w :
  exists_in w (NodePath.resolve process_cwd [cwd options]) = false →
  add_action options w
  = (Exit 1,
     {| files := files w; dirs := dirs w; answers := answers w;
        trace := LoggerError (lit "The path "
                              ++ NodePath.resolve process_cwd [cwd options]
                              ++ lit " does not exist. Please try again.")
                 :: trace w |}).
Proof.
  intros Hmissing.
  unfold add_action, try_catch, bind at 1, existsSync. cbn zeta.
  unfold bind at 1, bind at 1. rewrite Hmissing. done.
Qed.

(** X15: with a configuration found and names given on the command line, nothing
    is asked before the installation: the action is the installation of the
    given names with that configuration. *)
Theorem add_action_given_names options w names config w1 :
  exists_in w (NodePath.resolve process_cwd [cwd options]) = true →
  getConfig (NodePath.resolve process_cwd [cwd options]) w = (Ret (Some config), w1) →
  components options = Some names → names ≠ [] →
  add_action options w = add_selected names config options w1.
Proof.
  intros Hexists Hconfig Hgiven Hnames.
  unfold add_action. rewrite try_catch_no_throw.
  - unfold bind, existsSync, ret. cbn zeta. rewrite Hexists. cbn [negb].
    rewrite Hconfig, Hgiven. cbn [default]. by destruct names.
  - intros err. unfold bind, existsSync, ret. cbn zeta. rewrite Hexists. cbn [negb].
    rewrite Hconfig, Hgiven. cbn [default]. destruct names; [done|].
    apply add_selected_never_throws.
Qed.

(** X16: without names on the command line the operator selects among the
    components of type [ui]; a selection that is empty or given up ends the
    action with a warning and code 0, and nothing is installed. *)
Theorem add_action_no_selection options w config w1 selection w2 :
  exists_in w (NodePath.resolve process_cwd [cwd options]) = true →
  getConfig (NodePath.resolve process_cwd [cwd options]) w = (Ret (Some config), w1) →
  default [] (components options) = [] →
  prompts_multiselect (name <$> filter (λ comp, type comp = lit "ui") COMPONENTS) w1
  = (Ret selection, w2) →
  default [] selection = [] →
  add_action options w
  = (Exit 0,
     {| files := files w2; dirs := dirs w2; answers := answers w2;
        trace := LoggerWarn (lit "No components selected. Exiting.") :: trace w2 |}).
Proof.
  intros Hexists Hconfig Hnone Hselect Hempty.
  unfold add_action, try_catch, bind, existsSync, ret. cbn zeta.
  rewrite Hexists. cbn [negb]. rewrite Hconfig, Hnone.
  unfold ui_choices. rewrite Hselect, Hempty. done.
Qed.

End CommandFacts.

(** *** The additional properties on the sample project *)

Section MoreSamples.

Local Abbreviation writeFiles_entry := (writeFiles_entry Sample.process_cwd true id).
Local Abbreviation writeFiles := (writeFiles Sample.process_cwd true id).
Local Abbreviation fs_key := (fs_key Sample.process_cwd).
Local Abbreviation exists_in := (exists_in Sample.process_cwd).

Lemma writeFiles_without_consent_witness :
  files (writeFiles Sample.button [Sample.button_entry] Sample.config
           (Sample.options false) (Sample.world [false; false])).2
    !! lit "/app/components/ui/button.tsx"
  = Some (lit "old").
Proof.
  apply (writeFiles_without_consent Sample.process_cwd true id).
  - reflexivity.
  - by repeat constructor.
  - vm_compute. reflexivity.
Defined.

Lemma writeFiles_forced_never_asks_witness :
  let w := Sample.world [false] in
  let w' := (writeFiles Sample.button [Sample.button_entry] Sample.config
               (Sample.options true) w).2 in
  answers w' = answers w ∧
  ∃ events, trace w' = events ++ trace w ∧ prompts_shown events = 0.
Proof.
  apply (writeFiles_forced_never_asks Sample.process_cwd true id).
  reflexivity.
Defined.

Lemma writeFiles_entry_target_dir_exists_witness :
  exists_in Sample.fresh_world (target_dir Sample.config Sample.button_entry) = false ∧
  exists_in (writeFiles_entry Sample.button Sample.button_entry Sample.config
               (Sample.options false) Sample.fresh_world).2
            (target_dir Sample.config Sample.button_entry)
  = true.
Proof.
  split; [vm_compute; reflexivity|].
  apply (writeFiles_entry_target_dir_exists Sample.process_cwd true id).
  - vm_compute. reflexivity.
  - by_evaluation.
  - right. unfold mkdir_possible. by_evaluation.
Defined.



Lemma add_selected_writes_resolved_entries_witness :
  ∃ resolved comp e,
    (inr [Sample.button] : Thrown + list Component) = inr resolved ∧
    comp ∈ resolved ∧
    e ∈ match paths comp with
        | PathsArray entries => entries
        | PathsByPlatform universal_entries native_only_entries =>
            match platforms Sample.config with
            | universal => universal_entries
            | native_only => native_only_entries
            end
        end ∧
    lit "/app/components/ui/button.tsx" = fs_key (destination Sample.config e).
Proof.
  apply (add_selected_writes_resolved_entries Sample.process_cwd true id
           Sample.COMPONENTS Sample.INVALID_COMPONENT_ERROR
           (λ _, inr [Sample.button]) [lit "button"] Sample.config
           (Sample.options false) (Sample.world [true])).
  by_evaluation.
Defined.

Lemma install_components_logs_packages_witness :
  let w := Sample.fresh_world in
  let run := install_components Sample.process_cwd true id
               [Sample.text; Sample.button] Sample.config (Sample.options false) w in
  run.1 = Ret tt ∧
  trace run.2
  = [ConsoleLog (lit "NPM PACKAGES") [];
     SpinnerStart (lit "Installing button...");
     SpinnerText (lit "Installing button...");
     ConsoleLog (lit "NPM PACKAGES") [];
     SpinnerText (lit "Installing text...")].
Proof.
  intros w run. unfold run.
  destruct (install_components_logs_packages Sample.process_cwd true id
              [Sample.text] Sample.button [] Sample.config (Sample.options false) w
              (install_components Sample.process_cwd true id [Sample.text]
                 Sample.config (Sample.options false) w).2)
    as [_ Hrun].
  - vm_compute. reflexivity.
  - change ([Sample.text; Sample.button]) with ([Sample.text] ++ [Sample.button]).
    rewrite Hrun. vm_compute. split; reflexivity.
Defined.

Lemma promptForConfig_writes_with_consent_witness :
  let w := Sample.world [true] in
  ∃ w2,
    promptForConfig Sample.process_cwd id Config (λ _, inr Sample.config)
                    (λ _ config, ret config) (λ _, lit "{}")
                    (ret {| answered_platforms := Some (lit "universal");
                            answered_components := Some (lit "~/components");
                            answered_lib := Some (lit "~/lib") |})
                    (lit "/app") w
    = ret Sample.config w2 ∧
    dirs w2 = dirs w ∧
    answers w2 = [] ∧
    files w2 = <[lit "/app/components.json" := lit "{}"]> (files w).
Proof.
  intros w.
  refine (promptForConfig_writes_with_consent Sample.process_cwd id Config
            (λ _, inr Sample.config) (λ _ config, ret config) (λ _, lit "{}")
            (ret {| answered_platforms := Some (lit "universal");
                    answered_components := Some (lit "~/components");
                    answered_lib := Some (lit "~/lib") |})
            (lit "/app") w _ w eq_refl _).
  intros _. unfold write_possible, directory_at. by_evaluation.
Defined.

Local Abbreviation add_action :=
  (add_action Sample.process_cwd true id id Sample.COMPONENTS
              Sample.INVALID_COMPONENT_ERROR
              (Resolver.getAllComponentsToWrite Sample.COMPONENTS
                 Sample.INVALID_COMPONENT_ERROR)
              Config (λ _, inr Sample.config)
              (λ _, ret (Some Sample.config))
              (λ _ config, ret config) (λ _, lit "{}")
              (ret {| answered_platforms := None; answered_components := None;
                      answered_lib := None |})).
Local Abbreviation add_selected :=
  (add_selected Sample.process_cwd true id Sample.COMPONENTS
                Sample.INVALID_COMPONENT_ERROR
                (Resolver.getAllComponentsToWrite Sample.COMPONENTS
                   Sample.INVALID_COMPONENT_ERROR)).

Lemma add_action_missing_cwd_witness :
  let options := {| components := Some [lit "button"]; overwrite := false;
                    cwd := lit "/nowhere"; path := None |} in
  let w := Sample.world [] in
  add_action (λ _, ret None) options w
  = (Exit 1,
     {| files := files w; dirs := dirs w; answers := answers w;
        trace := [LoggerError (lit "The path /nowhere does not exist. Please try again.")] |}).
Proof.
  intros options w.
  apply (add_action_missing_cwd Sample.process_cwd true id id).
  vm_compute. reflexivity.
Defined.

Lemma add_action_given_names_witness :
  add_action (λ _, ret None) (Sample.options false) (Sample.world [])
  = add_selected [lit "button"] Sample.config (Sample.options false) (Sample.world []).
Proof.
  apply (add_action_given_names Sample.process_cwd true id id).
  - vm_compute. reflexivity.
  - reflexivity.
  - reflexivity.
  - done.
Defined.

Lemma add_action_no_selection_witness :
  let options := {| components := Some []; overwrite := false;
                    cwd := lit "/app"; path := None |} in
  let w := Sample.world [] in
  add_action (λ _, ret None) options w
  = (Exit 0,
     {| files := files w; dirs := dirs w; answers := answers w;
        trace := [LoggerWarn (lit "No components selected. Exiting.")] |}).
Proof.
  intros options w.
  apply (add_action_no_selection Sample.process_cwd true id id Sample.COMPONENTS
           Sample.INVALID_COMPONENT_ERROR _ Config _ _ _ _ _ _ options w
           Sample.config w None w).
  - vm_compute. reflexivity.
  - reflexivity.
  - reflexivity.
  - reflexivity.
  - reflexivity.
Defined.

End MoreSamples.
